(** * Four-bar linkage: position solver and Grashof classifier

    A shallow embedding of [calculateJoints] and [determineGrashof]
    (src/index.tsx), with the properties of the specification stated and
    proved over it, followed by the computing parts of the components that
    call them and further properties of the whole.

    Numbers.  The TypeScript [number] is an IEEE double.  The embedding is in
    exact real arithmetic: a [number] is a real of [R], [Math.sqrt],
    [Math.cos], [Math.sin], [Math.acos], [Math.abs], [Math.min], [Math.max]
    and [Math.PI] are the functions and the constant of the same name of the
    Reals library, and [Math.atan2] is defined below from [atan] by its
    quadrant table.  Rounding, infinities and NaN operands are outside the
    model; the one NaN the source writes as a literal (the coordinates of C
    in the rejected frame) is modelled by [None]. *)

From Stdlib Require Import Reals ZArith Lra Lia List Bool String.
Import ListNotations.

Open Scope R_scope.

(** ** Comparisons of numbers as booleans *)

Definition Rltb (x y : R) : bool := if Rlt_dec x y then true else false.
Definition Rgtb (x y : R) : bool := Rltb y x.
Definition Reqb (x y : R) : bool := if Req_dec_T x y then true else false.

Infix "<?" := Rltb (at level 70, no associativity) : R_scope.
Infix ">?" := Rgtb (at level 70, no associativity) : R_scope.
Infix "=?" := Reqb (at level 70, no associativity) : R_scope.

(** ** Types (src/types.ts) *)

Record LinkLengths : Type := mkLinkLengths {
  frame : R;    (* d *)
  input : R;    (* a *)
  coupler : R;  (* b *)
  output : R    (* c *)
}.

(** [Cx] and [Cy] are [None] where the source stores the literal NaN. *)
Record JointCoordinates : Type := mkJointCoordinates {
  Ax : R;
  Ay : R;
  Bx : R;
  By : R;
  Cx : option R;
  Cy : option R;
  Dx : R;
  Dy : R;
  isValid : bool
}.

Inductive GrashofType : Type :=
| CRANK_ROCKER
| DOUBLE_CRANK
| DOUBLE_ROCKER_I
| DOUBLE_ROCKER_II
| CHANGE_POINT
| INVALID.

Inductive LinkRole : Type :=
| FRAME
| INPUT
| COUPLER
| OUTPUT.

(** [===] on two values of the enum [LinkRole]. *)
Definition LinkRole_eqb (r1 r2 : LinkRole) : bool :=
  match r1, r2 with
  | FRAME, FRAME | INPUT, INPUT | COUPLER, COUPLER | OUTPUT, OUTPUT => true
  | _, _ => false
  end.

(** ** The classifier: [determineGrashof] *)

(** An entry [{ role, len }] of the array [map]. *)
Record Item : Type := mkItem { role : LinkRole; len : R }.

(** The result object [{ type, shortest, longest }]. *)
Record Classification : Type := mkClassification {
  type : GrashofType;
  shortest : LinkRole;
  longest : LinkRole
}.

Definition map (lengths : LinkLengths) : list Item :=
  [ mkItem FRAME (frame lengths);
    mkItem INPUT (input lengths);
    mkItem COUPLER (coupler lengths);
    mkItem OUTPUT (output lengths) ].

(** [map[0]]; the array literal always has four entries. *)
Definition map0 (lengths : LinkLengths) : Item :=
  hd (mkItem FRAME (frame lengths)) (map lengths).

(** One turn of the loop [for (const item of map)]: the state is the pair of
    the variables [shortest] and [longest]. *)
Definition scan_step (st : Item * Item) (item : Item) : Item * Item :=
  let (shortest, longest) := st in
  (if len item <? len shortest then item else shortest,
   if len item >? len longest then item else longest).

(** The values of [shortest] and [longest] when the loop ends. *)
Definition scan (lengths : LinkLengths) : Item * Item :=
  fold_left scan_step (map lengths) (map0 lengths, map0 lengths).

(** [map.reduce((acc, curr) => acc + curr.len, 0)]. *)
Definition totalSum (lengths : LinkLengths) : R :=
  fold_left (fun acc curr => acc + len curr) (map lengths) 0.

Definition determineGrashof (lengths : LinkLengths) : Classification :=
  let (shortest, longest) := scan lengths in
  let S := len shortest in
  let L := len longest in
  let PQ := totalSum lengths - S - L in
  if L >? S + PQ then
    mkClassification INVALID (role shortest) (role longest)
  else
    let threshold := 0.01 in
    if Rabs ((S + L) - PQ) <? threshold then
      mkClassification CHANGE_POINT (role shortest) (role longest)
    else if S + L <? PQ then
      if LinkRole_eqb (role shortest) FRAME then
        mkClassification DOUBLE_CRANK (role shortest) (role longest)
      else if LinkRole_eqb (role shortest) INPUT
              || LinkRole_eqb (role shortest) OUTPUT then
        mkClassification CRANK_ROCKER (role shortest) (role longest)
      else if LinkRole_eqb (role shortest) COUPLER then
        mkClassification DOUBLE_ROCKER_I (role shortest) (role longest)
      else
        mkClassification DOUBLE_ROCKER_II (role shortest) (role longest)
    else
      mkClassification DOUBLE_ROCKER_II (role shortest) (role longest).

(** ** The position solver: [calculateJoints] *)

(** [Math.atan2 (y, x)]: the angle of the point [(x, y)], in [(-PI, PI]],
    by the quadrant table of the language standard; [0] at the origin. *)
Definition atan2 (y x : R) : R :=
  if 0 <? x then atan (y / x)
  else if x <? 0 then
    if y <? 0 then atan (y / x) - PI else atan (y / x) + PI
  else if 0 <? y then PI / 2
  else if y <? 0 then - (PI / 2)
  else 0.

Definition calculateJoints (lengths : LinkLengths) (thetaInput : R)
  : JointCoordinates :=
  let d := frame lengths in
  let a := input lengths in
  let b := coupler lengths in
  let c := output lengths in
  (* Convert angle to radians *)
  let theta := (thetaInput * PI) / 180 in
  (* Joint A is origin (0,0) *)
  let Ax := 0 in
  let Ay := 0 in
  (* Joint D is fixed on X axis at distance d *)
  let Dx := d in
  let Dy := 0 in
  (* Joint B is determined by input angle *)
  let Bx := a * cos theta in
  let By := a * sin theta in
  (* Distance between B and D *)
  let distBD := sqrt ((Dx - Bx) ^ 2 + (Dy - By) ^ 2) in
  (* Check assembly validity (Triangle inequality) *)
  if (distBD >? b + c) || (distBD <? Rabs (b - c)) || (distBD =? 0) then
    mkJointCoordinates Ax Ay Bx By None None Dx Dy false
  else
    (* Law of Cosines to find angle BDC (alpha) relative to line BD *)
    let cosAlpha := (c * c + distBD * distBD - b * b) / (2 * c * distBD) in
    let alpha := acos (Rmin (Rmax cosAlpha (-1)) 1) in
    (* Angle of line DB relative to horizontal *)
    let angleDB := atan2 (By - Dy) (Bx - Dx) in
    (* We subtract alpha to keep the standard configuration *)
    let thetaOutput := angleDB - alpha in
    let Cx := Dx + c * cos thetaOutput in
    let Cy := Dy + c * sin thetaOutput in
    mkJointCoordinates Ax Ay Bx By (Some Cx) (Some Cy) Dx Dy true.

(** *** The local constants of [calculateJoints], by name

    The properties below speak of [distBD], [cosAlpha] and [alpha], which
    the function does not return.  Each is restated here with the expression
    the source binds to it; [calculateJoints_locals] checks that the function
    is built from exactly these values. *)

Section Locals.
Variable lengths : LinkLengths.
Variable thetaInput : R.

Definition theta_of : R := (thetaInput * PI) / 180.
Definition Bx_of : R := input lengths * cos theta_of.
Definition By_of : R := input lengths * sin theta_of.
Definition distBD_of : R :=
    sqrt ((frame lengths - Bx_of) ^ 2 + (0 - By_of) ^ 2).
Definition rejected : bool :=
    (distBD_of >? coupler lengths + output lengths)
    || (distBD_of <? Rabs (coupler lengths - output lengths))
    || (distBD_of =? 0).
Definition cosAlpha_of : R :=
    (output lengths * output lengths + distBD_of * distBD_of
     - coupler lengths * coupler lengths)
    / (2 * output lengths * distBD_of).
Definition alpha_of : R := acos (Rmin (Rmax cosAlpha_of (-1)) 1).
Definition angleDB_of : R := atan2 (By_of - 0) (Bx_of - frame lengths).
Definition thetaOutput_of : R := angleDB_of - alpha_of.
End Locals.

(** ** Vocabulary of the specification *)

(** A LinkSet: four positive lengths. *)
Definition positive (l : LinkLengths) : Prop :=
  0 < frame l /\ 0 < input l /\ 0 < coupler l /\ 0 < output l.

(** Euclidean distance between two points of the plane. *)
Definition dist (p q : R * R) : R :=
  sqrt ((fst q - fst p) ^ 2 + (snd q - snd p) ^ 2).

(** The length a role holds. *)
Definition length_of (l : LinkLengths) (r : LinkRole) : R :=
  match r with
  | FRAME => frame l
  | INPUT => input l
  | COUPLER => coupler l
  | OUTPUT => output l
  end.

(** Position of a role in the fixed order frame, input, coupler, output. *)
Definition role_index (r : LinkRole) : nat :=
  match r with
  | FRAME => 0
  | INPUT => 1
  | COUPLER => 2
  | OUTPUT => 3
  end.

(** S and L: the least and the greatest of the four lengths; P + Q: the sum
    of the other two. *)
Definition S_of (l : LinkLengths) : R :=
  Rmin (Rmin (frame l) (input l)) (Rmin (coupler l) (output l)).
Definition L_of (l : LinkLengths) : R :=
  Rmax (Rmax (frame l) (input l)) (Rmax (coupler l) (output l)).
Definition PQ_of (l : LinkLengths) : R :=
  frame l + input l + coupler l + output l - S_of l - L_of l.

(** [r] is the first role, in the fixed order, that holds the least
    (greatest) length: every role holds at least (at most) as much, and
    every earlier role strictly more (less). *)
Definition first_shortest (l : LinkLengths) (r : LinkRole) : Prop :=
  forall r', length_of l r <= length_of l r'
             /\ ((role_index r' < role_index r)%nat ->
                 length_of l r < length_of l r').
Definition first_longest (l : LinkLengths) (r : LinkRole) : Prop :=
  forall r', length_of l r' <= length_of l r
             /\ ((role_index r' < role_index r)%nat ->
                 length_of l r' < length_of l r).

(** The category of the S + L < P + Q branch as a function of the shortest
    role: its three [if]s cover the four roles. *)
Definition grashof_ladder (r : LinkRole) : GrashofType :=
  match r with
  | FRAME => DOUBLE_CRANK
  | INPUT | OUTPUT => CRANK_ROCKER
  | COUPLER => DOUBLE_ROCKER_I
  end.

(** ** The presentation shell

    The parts of the components [App], [Controls], [InfoPanel] and
    [LinkageCanvas] that compute: the animation tick, the edit of a length,
    the position of the angle slider, the numbers of the analysis panel, and
    the view box and the highlighting of the drawing.  The markup around
    them is not modelled. *)

(** *** [App]: the tick of the animation *)

(** The state the tick works on: the React state [angle] and the mutable
    cell [directionRef.current]. *)
Record AnimState : Type := mkAnimState { angle : R; direction : R }.

(** The updater that [animate] hands to [setAngle], with its write to
    [directionRef.current]; [lengths] and [speed] are the values the
    callback closes over. *)
Definition animate (lengths : LinkLengths) (speed : R) (st : AnimState)
  : AnimState :=
  let prevAngle := angle st in
  let step := speed * direction st in
  let nextAngle := prevAngle + step in
  (* Check if next angle is valid *)
  let nextJoints := calculateJoints lengths nextAngle in
  if isValid nextJoints then
    mkAnimState nextAngle (direction st)
  else
    (* Hit a limit! Reverse direction *)
    let direction' := direction st * -1 in
    mkAnimState (prevAngle + speed * direction') direction'.

(** [n] ticks in a row, [lengths] and [speed] unchanged. *)
Fixpoint ticks (lengths : LinkLengths) (speed : R) (n : nat) (st : AnimState)
  : AnimState :=
  match n with
  | O => st
  | S n' => ticks lengths speed n' (animate lengths speed st)
  end.

(** The state [App] starts from: [useState(90)] and [useRef(1)]. *)
Definition initialAnim : AnimState := mkAnimState 90 1.

(** The lengths [App] starts from. *)
Definition initialLengths : LinkLengths := mkLinkLengths 200 80 180 140.

(** *** [App] and [Controls]: editing a length *)

(** [keyof LinkLengths]. *)
Inductive LengthKey : Type :=
| key_frame
| key_input
| key_coupler
| key_output.

(** [lengths[key]]. *)
Definition get_length (lengths : LinkLengths) (key : LengthKey) : R :=
  match key with
  | key_frame => frame lengths
  | key_input => input lengths
  | key_coupler => coupler lengths
  | key_output => output lengths
  end.

(** [handleLengthChange]: the updater [prev => ({ ...prev, [key]: value })]. *)
Definition handleLengthChange (prev : LinkLengths) (key : LengthKey)
  (value : R) : LinkLengths :=
  match key with
  | key_frame => mkLinkLengths value (input prev) (coupler prev) (output prev)
  | key_input => mkLinkLengths (frame prev) value (coupler prev) (output prev)
  | key_coupler => mkLinkLengths (frame prev) (input prev) value (output prev)
  | key_output => mkLinkLengths (frame prev) (input prev) (coupler prev) value
  end.

(** An entry [{ key, label, min, max }] of the array [sliders]; the label is
    text only and is left out. *)
Record Slider : Type := mkSlider { key : LengthKey; min : R; max : R }.

Definition sliders : list Slider :=
  [ mkSlider key_input 20 200;
    mkSlider key_coupler 20 300;
    mkSlider key_output 20 200;
    mkSlider key_frame 50 300 ].

(** The lengths are inside the ranges of their sliders. *)
Definition in_slider_ranges (l : LinkLengths) : Prop :=
  forall s : Slider, In s sliders -> min s <= get_length l (key s) <= max s.

(** The lengths are whole numbers, as [parseInt] makes the ones that come
    from the sliders. *)
Definition integral (l : LinkLengths) : Prop :=
  exists zd za zb zc : Z,
    l = mkLinkLengths (IZR zd) (IZR za) (IZR zb) (IZR zc).

(** *** [Controls]: the position of the angle slider *)




(** *** [InfoPanel]: the numbers of the analysis *)

Definition Rleb (x y : R) : bool := if Rle_dec x y then true else false.
Infix "<=?" := Rleb (at level 70, no associativity) : R_scope.

(** [Array.prototype.sort] with the comparator [(x, y) => x - y]: the
    ascending arrangement of the numbers, here by insertion. *)
Fixpoint sort_insert (x : R) (l : list R) : list R :=
  match l with
  | [] => [x]
  | y :: t => if x <=? y then x :: y :: t else y :: sort_insert x t
  end.

Fixpoint sort (l : list R) : list R :=
  match l with
  | [] => []
  | x :: t => sort_insert x (sort t)
  end.

(** The constants [InfoPanel] derives from [lengths], and the comparison
    sign it prints between S + L and P + Q. *)
Record PanelNumbers : Type := mkPanelNumbers {
  panelS : R;
  panelL : R;
  panelP : R;
  panelQ : R;
  sumSL : R;
  sumPQ : R;
  isGrashof : bool;
  relation : string
}.

Definition InfoPanel (lengths : LinkLengths) : PanelNumbers :=
  let d := frame lengths in
  let a := input lengths in
  let b := coupler lengths in
  let c := output lengths in
  let vals := sort [a; b; c; d] in
  let S := nth 0 vals 0 in
  let L := nth 3 vals 0 in
  let P := nth 1 vals 0 in
  let Q := nth 2 vals 0 in
  let sumSL := S + L in
  let sumPQ := P + Q in
  let isGrashof := sumSL <=? sumPQ in
  mkPanelNumbers S L P Q sumSL sumPQ isGrashof
    (if sumSL <? sumPQ then "<"%string
     else if sumSL >? sumPQ then ">"%string
     else "="%string).

(** *** [LinkageCanvas]: the view box and the highlighting *)

Record ViewBox : Type := mkViewBox {
  viewBoxMinX : R;
  viewBoxMinY : R;
  viewBoxWidth : R;
  viewBoxHeight : R
}.

Definition viewBox (coords : JointCoordinates) (lengths : LinkLengths)
  : ViewBox :=
  let centerX := (Ax coords + Dx coords) / 2 in
  let centerY := 0 in
  let padding := Rmax (input lengths) (output lengths) + coupler lengths + 50 in
  let viewBoxMinX := centerX - frame lengths / 2 - padding in
  let viewBoxMinY := centerY - padding in
  let viewBoxWidth := frame lengths + padding * 2 in
  let viewBoxHeight := padding * 2 in
  mkViewBox viewBoxMinX viewBoxMinY viewBoxWidth viewBoxHeight.

Definition getLinkColor (shortestRole longestRole role : LinkRole) : string :=
  if LinkRole_eqb role shortestRole then "stroke-green-600"%string
  else if LinkRole_eqb role longestRole then "stroke-red-500"%string
  else "stroke-slate-700"%string.

Definition getStrokeWidth (shortestRole role : LinkRole) : R :=
  if LinkRole_eqb role shortestRole then 6 else 4.

(** The point [(x, y)] is inside the rectangle of the view box. *)
Definition in_viewBox (v : ViewBox) (x y : R) : Prop :=
  viewBoxMinX v <= x <= viewBoxMinX v + viewBoxWidth v
  /\ viewBoxMinY v <= y <= viewBoxMinY v + viewBoxHeight v.

(** ** Tactics *)

(** Case analysis on every comparison of the goal, innermost first. *)
Ltac cases_cmp :=
  repeat (match goal with
          | |- context [Rlt_dec ?x ?y] =>
              lazymatch x with context [Rlt_dec _ _] => fail | _ => idtac end;
              lazymatch y with context [Rlt_dec _ _] => fail | _ => idtac end;
              destruct (Rlt_dec x y)
          | |- context [Req_dec_T ?x ?y] => destruct (Req_dec_T x y)
          end; cbn [len role fst snd]).

(** Case analysis on every [Rmin] and [Rmax] of the goal, innermost first. *)
Ltac cases_minmax :=
  unfold Rmin, Rmax;
  repeat match goal with
         | |- context [Rle_dec ?x ?y] =>
             lazymatch x with context [Rle_dec _ _] => fail | _ => idtac end;
             lazymatch y with context [Rle_dec _ _] => fail | _ => idtac end;
             destruct (Rle_dec x y)
         end.

(** Case analysis on the sign under every [Rabs], in the goal and in the
    hypotheses. *)
Ltac cases_abs :=
  unfold Rabs in *;
  repeat match goal with
         | H : context [Rcase_abs ?x] |- _ => destruct (Rcase_abs x)
         | |- context [Rcase_abs ?x] => destruct (Rcase_abs x)
         end.

(** Evaluation of [determineGrashof] at given numbers: every comparison is
    decided by linear arithmetic. *)
Ltac classify_at :=
  unfold determineGrashof, scan, totalSum, map0, map;
  cbn [fold_left hd scan_step len role frame input coupler output];
  unfold Rgtb, Rltb; cases_cmp; cases_abs;
  try (exfalso; lra); cbn.

(** S, L and P + Q of given numbers. *)
Ltac numbers_at :=
  unfold PQ_of, S_of, L_of; cbn [length_of frame input coupler output];
  cases_minmax; cases_abs; try lra.

(** Case analysis on every comparison made by the sort. *)
Ltac cases_sort :=
  cbn [sort sort_insert nth];
  repeat (unfold Rleb;
          match goal with
          | |- context [Rle_dec ?x ?y] => destruct (Rle_dec x y)
          end; cbn [sort_insert nth]).

(** ** Lemmas on comparisons *)

Lemma Rltb_true (x y : R) : (x <? y) = true <-> x < y.
Proof. unfold Rltb; destruct (Rlt_dec x y); split; intros; auto; discriminate. Qed.

Lemma Rltb_false (x y : R) : (x <? y) = false <-> y <= x.
Proof.
  unfold Rltb; destruct (Rlt_dec x y); split; intros; auto; try discriminate; lra.
Qed.

Lemma Rgtb_true (x y : R) : (x >? y) = true <-> y < x.
Proof. apply Rltb_true. Qed.

Lemma Rgtb_false (x y : R) : (x >? y) = false <-> x <= y.
Proof. apply Rltb_false. Qed.

Lemma Reqb_true (x y : R) : (x =? y) = true <-> x = y.
Proof. unfold Reqb; destruct (Req_dec_T x y); split; intros; auto; discriminate. Qed.

Lemma Reqb_false (x y : R) : (x =? y) = false <-> x <> y.
Proof.
  unfold Reqb; destruct (Req_dec_T x y); split; intros; auto; try discriminate.
  contradiction.
Qed.

Lemma calculateJoints_locals (l : LinkLengths) (t : R) :
  calculateJoints l t =
  if rejected l t then
    mkJointCoordinates 0 0 (Bx_of l t) (By_of l t) None None (frame l) 0 false
  else
    mkJointCoordinates 0 0 (Bx_of l t) (By_of l t)
      (Some (frame l + output l * cos (thetaOutput_of l t)))
      (Some (0 + output l * sin (thetaOutput_of l t)))
      (frame l) 0 true.
Proof. reflexivity. Qed.

(** ** The scan for the shortest and the longest link *)

Lemma totalSum_eq (l : LinkLengths) :
  totalSum l = frame l + input l + coupler l + output l.
Proof. unfold totalSum; simpl; lra. Qed.

(** The item kept in [shortest] carries the length of its own role. *)
Lemma scan_fst_len (l : LinkLengths) :
  len (fst (scan l)) = length_of l (role (fst (scan l))).
Proof. cbn; unfold Rltb; cases_cmp; reflexivity. Qed.

Lemma scan_snd_len (l : LinkLengths) :
  len (snd (scan l)) = length_of l (role (snd (scan l))).
Proof. cbn; unfold Rgtb, Rltb; cases_cmp; reflexivity. Qed.

Lemma scan_fst_first (l : LinkLengths) :
  first_shortest l (role (fst (scan l))).
Proof.
  destruct l as [d a b c]; intros r'.
  cbn; unfold Rltb; cases_cmp; destruct r'; cbn; split;
    solve [ lra | intros H; first [ lra | exfalso; lia ] ].
Qed.

Lemma scan_snd_first (l : LinkLengths) :
  first_longest l (role (snd (scan l))).
Proof.
  destruct l as [d a b c]; intros r'.
  cbn; unfold Rgtb, Rltb; cases_cmp; destruct r'; cbn; split;
    solve [ lra | intros H; first [ lra | exfalso; lia ] ].
Qed.

(** The first role among the shortest holds S, the first among the longest
    holds L. *)
Lemma first_shortest_S (l : LinkLengths) (r : LinkRole) :
  first_shortest l r -> length_of l r = S_of l.
Proof.
  intros H.
  pose proof (proj1 (H FRAME)); pose proof (proj1 (H INPUT));
    pose proof (proj1 (H COUPLER)); pose proof (proj1 (H OUTPUT)).
  unfold S_of; destruct r; cbn in *;
    cases_minmax; lra.
Qed.

Lemma first_longest_L (l : LinkLengths) (r : LinkRole) :
  first_longest l r -> length_of l r = L_of l.
Proof.
  intros H.
  pose proof (proj1 (H FRAME)); pose proof (proj1 (H INPUT));
    pose proof (proj1 (H COUPLER)); pose proof (proj1 (H OUTPUT)).
  unfold L_of; destruct r; cbn in *;
    cases_minmax; lra.
Qed.

(** At most one role is the first shortest (longest). *)
Lemma first_shortest_unique (l : LinkLengths) (r1 r2 : LinkRole) :
  first_shortest l r1 -> first_shortest l r2 -> r1 = r2.
Proof.
  intros H1 H2.
  destruct (H1 r2) as [A1 B1]; destruct (H2 r1) as [A2 B2].
  destruct r1, r2; cbn in *; try reflexivity; exfalso;
    first [ specialize (B1 ltac:(lia)) | specialize (B2 ltac:(lia)) ]; lra.
Qed.

Lemma first_longest_unique (l : LinkLengths) (r1 r2 : LinkRole) :
  first_longest l r1 -> first_longest l r2 -> r1 = r2.
Proof.
  intros H1 H2.
  destruct (H1 r2) as [A1 B1]; destruct (H2 r1) as [A2 B2].
  destruct r1, r2; cbn in *; try reflexivity; exfalso;
    first [ specialize (B1 ltac:(lia)) | specialize (B2 ltac:(lia)) ]; lra.
Qed.

Lemma scan_S (l : LinkLengths) : len (fst (scan l)) = S_of l.
Proof. rewrite scan_fst_len; apply first_shortest_S, scan_fst_first. Qed.

Lemma scan_L (l : LinkLengths) : len (snd (scan l)) = L_of l.
Proof. rewrite scan_snd_len; apply first_longest_L, scan_snd_first. Qed.

(** [determineGrashof] in terms of S, L and P + Q. *)
Lemma determineGrashof_cases (l : LinkLengths) :
  shortest (determineGrashof l) = role (fst (scan l))
  /\ longest (determineGrashof l) = role (snd (scan l))
  /\ type (determineGrashof l) =
     if L_of l >? S_of l + PQ_of l then INVALID
     else if Rabs ((S_of l + L_of l) - PQ_of l) <? 0.01 then CHANGE_POINT
     else if S_of l + L_of l <? PQ_of l then grashof_ladder (role (fst (scan l)))
     else DOUBLE_ROCKER_II.
Proof.
  unfold PQ_of; rewrite <- (totalSum_eq l), <- (scan_S l), <- (scan_L l).
  unfold determineGrashof.
  destruct (scan l) as [s g]; cbn [fst snd].
  destruct (len g >? len s + (totalSum l - len s - len g)); [cbn; auto|].
  destruct (Rabs (len s + len g - (totalSum l - len s - len g)) <? 0.01);
    [cbn; auto|].
  destruct (len s + len g <? totalSum l - len s - len g); [|cbn; auto].
  destruct (role s); cbn; auto.
Qed.

(** When S + L < P + Q only one role holds the shortest length: a second
    one would be P or Q, and then P + Q <= S + L. *)
Lemma grashof_shortest_unique (l : LinkLengths) (r : LinkRole) :
  S_of l + L_of l < PQ_of l ->
  length_of l r = S_of l ->
  role (fst (scan l)) = r.
Proof.
  intros HG Hr.
  pose proof (scan_fst_len l) as Hs; rewrite scan_S in Hs.
  revert HG Hr Hs; generalize (role (fst (scan l))) as r0.
  destruct l as [d a b c]; unfold PQ_of, S_of, L_of; cbn [frame input coupler output].
  intros r0; destruct r0, r; cbn [length_of frame input coupler output];
    try reflexivity; cases_minmax; intros; exfalso; lra.
Qed.

(** *** The classifier at given lengths *)

Example classify_200_80_180_140 :
  determineGrashof (mkLinkLengths 200 80 180 140)
  = mkClassification CRANK_ROCKER INPUT FRAME.
Proof. classify_at; reflexivity. Qed.

Example classify_50_10_10_10 :
  determineGrashof (mkLinkLengths 50 10 10 10)
  = mkClassification INVALID INPUT FRAME.
Proof. classify_at; reflexivity. Qed.

Example classify_100_100_100_100 :
  determineGrashof (mkLinkLengths 100 100 100 100)
  = mkClassification CHANGE_POINT FRAME FRAME.
Proof. classify_at; reflexivity. Qed.

Example classify_100_80_60_50 :
  determineGrashof (mkLinkLengths 100 80 60 50)
  = mkClassification DOUBLE_ROCKER_II OUTPUT FRAME.
Proof. classify_at; reflexivity. Qed.

(** ** Geometry of the solver *)

Lemma hypot_factor (x y : R) :
  x <> 0 -> sqrt (x ^ 2 + y ^ 2) = Rabs x * sqrt (1 + (y / x)²).
Proof.
  intros Hx.
  rewrite <- sqrt_Rsqr_abs, <- sqrt_mult_alt by apply Rle_0_sqr.
  f_equal; unfold Rsqr; field; assumption.
Qed.

Lemma sqrt_1_sqr_pos (t : R) : 0 < sqrt (1 + t²).
Proof. apply sqrt_lt_R0; pose proof (Rle_0_sqr t); lra. Qed.

(** [atan2 y x] is the polar angle of the point [(x, y)]. *)
Lemma atan2_polar (x y : R) :
  x <> 0 \/ y <> 0 ->
  sqrt (x ^ 2 + y ^ 2) * cos (atan2 y x) = x
  /\ sqrt (x ^ 2 + y ^ 2) * sin (atan2 y x) = y.
Proof.
  intros Hxy. unfold atan2, Rltb.
  pose proof (sqrt_1_sqr_pos (y / x)) as Hs.
  destruct (Rlt_dec 0 x) as [Hx|Hx].
  - rewrite hypot_factor, Rabs_pos_eq, cos_atan, sin_atan by lra.
    split; field; lra.
  - destruct (Rlt_dec x 0) as [Hx'|Hx'].
    + rewrite hypot_factor, Rabs_left by lra.
      destruct (Rlt_dec y 0).
      * rewrite cos_minus, sin_minus, cos_PI, sin_PI, cos_atan, sin_atan.
        split; field; lra.
      * rewrite cos_plus, sin_plus, cos_PI, sin_PI, cos_atan, sin_atan.
        split; field; lra.
    + assert (x = 0) by lra; subst x.
      replace (0 ^ 2 + y ^ 2) with (y²) by (unfold Rsqr; ring).
      rewrite sqrt_Rsqr_abs.
      destruct (Rlt_dec 0 y); [|destruct (Rlt_dec y 0)].
      * rewrite cos_PI2, sin_PI2, Rabs_pos_eq by lra. lra.
      * rewrite cos_neg, sin_neg, cos_PI2, sin_PI2, Rabs_left by lra. lra.
      * exfalso; destruct Hxy; lra.
Qed.

Lemma div_bounds (n m : R) : 0 < m -> - m <= n <= m -> -1 <= n / m <= 1.
Proof.
  intros Hm [H1 H2].
  assert (Hi : 0 < / m) by (apply Rinv_0_lt_compat; lra).
  assert (E : m * / m = 1) by (field; lra).
  unfold Rdiv; split; nra.
Qed.

Lemma clamp_id (x : R) : -1 <= x <= 1 -> Rmin (Rmax x (-1)) 1 = x.
Proof. intros H; cases_minmax; lra. Qed.


Lemma distBD_nonneg (l : LinkLengths) (t : R) : 0 <= distBD_of l t.
Proof. apply sqrt_pos. Qed.

(** [distBD] is the distance between B and D. *)
Lemma distBD_dist (l : LinkLengths) (t : R) :
  distBD_of l t
  = dist (input l * cos (t * PI / 180), input l * sin (t * PI / 180))
         (frame l, 0).
Proof. reflexivity. Qed.

Lemma rejected_false (l : LinkLengths) (t : R) :
  rejected l t = false <->
  Rabs (coupler l - output l) <= distBD_of l t <= coupler l + output l
  /\ distBD_of l t > 0.
Proof.
  pose proof (distBD_nonneg l t) as H0.
  unfold rejected.
  rewrite !orb_false_iff, Rgtb_false, Rltb_false, Reqb_false.
  split; [intros [[H1 H2] H3]|intros [[H1 H2] H3]]; repeat split; lra.
Qed.

Lemma isValid_rejected (l : LinkLengths) (t : R) :
  isValid (calculateJoints l t) = negb (rejected l t).
Proof. rewrite calculateJoints_locals; destruct (rejected l t); reflexivity. Qed.

Lemma isValid_true (l : LinkLengths) (t : R) :
  isValid (calculateJoints l t) = true <->
  Rabs (coupler l - output l) <= distBD_of l t <= coupler l + output l
  /\ distBD_of l t > 0.
Proof.
  rewrite isValid_rejected, negb_true_iff; apply rejected_false.
Qed.

(** In the accepted branch the argument of the arccosine is a cosine. *)
Lemma cosAlpha_range (l : LinkLengths) (t : R) :
  0 < coupler l -> 0 < output l ->
  rejected l t = false ->
  -1 <= cosAlpha_of l t <= 1.
Proof.
  intros Hb Hc Hr. apply rejected_false in Hr.
  destruct Hr as [[H1 H2] H3].
  unfold cosAlpha_of. set (D := distBD_of l t) in *.
  apply div_bounds; [nra|].
  revert H1; cases_abs; intros; split; nra.
Qed.

(** The law-of-cosines construction, with the angles replaced by their
    cosines and sines. *)
Lemma law_of_cosines_roundtrip (c D b cf sf ca sa : R) :
  cf * cf + sf * sf = 1 ->
  ca * ca + sa * sa = 1 ->
  2 * c * D * ca = c * c + D * D - b * b ->
  (c * (cf * ca + sf * sa) - D * cf) ^ 2
  + (c * (sf * ca - cf * sa) - D * sf) ^ 2 = b ^ 2.
Proof.
  intros H1 H2 H3.
  replace ((c * (cf * ca + sf * sa) - D * cf) ^ 2
           + (c * (sf * ca - cf * sa) - D * sf) ^ 2)
    with (c * c * ((cf * cf + sf * sf) * (ca * ca + sa * sa))
          - (2 * c * D * ca) * (cf * cf + sf * sf)
          + D * D * (cf * cf + sf * sf)) by ring.
  rewrite H1, H2, H3; ring.
Qed.

Lemma cos2_sin2 (x : R) : cos x * cos x + sin x * sin x = 1.
Proof. pose proof (sin2_cos2 x) as H; unfold Rsqr in H; lra. Qed.

(** Distance of C to D and to B in the accepted branch. *)
Lemma accepted_distances (l : LinkLengths) (t : R) :
  positive l ->
  rejected l t = false ->
  let cx := frame l + output l * cos (thetaOutput_of l t) in
  let cy := 0 + output l * sin (thetaOutput_of l t) in
  dist (Bx_of l t, By_of l t) (cx, cy) = coupler l
  /\ dist (cx, cy) (frame l, 0) = output l.
Proof.
  intros (Hd & Ha & Hb & Hc) Hr cx cy.
  pose proof (cosAlpha_range l t Hb Hc Hr) as Hca.
  apply rejected_false in Hr; destruct Hr as [_ HD].
  unfold dist; cbn [fst snd]; subst cx cy.
  split.
  - transitivity (sqrt (coupler l ^ 2)); [f_equal | apply sqrt_pow2; lra].
    unfold thetaOutput_of.
    rewrite cos_minus, sin_minus.
    assert (Hpol : distBD_of l t * cos (angleDB_of l t) = Bx_of l t - frame l
                   /\ distBD_of l t * sin (angleDB_of l t) = By_of l t - 0).
    { unfold distBD_of, angleDB_of in *.
      replace ((frame l - Bx_of l t) ^ 2 + (0 - By_of l t) ^ 2)
        with ((Bx_of l t - frame l) ^ 2 + (By_of l t - 0) ^ 2) in * by ring.
      apply atan2_polar.
      destruct (Req_dec (Bx_of l t - frame l) 0) as [E1|E1]; [|left; exact E1].
      destruct (Req_dec (By_of l t - 0) 0) as [E2|E2]; [|right; exact E2].
      exfalso. rewrite E1, E2 in HD.
      replace (0 ^ 2 + 0 ^ 2) with 0 in HD by ring. rewrite sqrt_0 in HD; lra. }
    destruct Hpol as [Hx Hy].
    assert (Hcos : cos (alpha_of l t) = cosAlpha_of l t).
    { unfold alpha_of; rewrite clamp_id by exact Hca. apply cos_acos, Hca. }
    rewrite <- (law_of_cosines_roundtrip (output l) (distBD_of l t) (coupler l)
                  (cos (angleDB_of l t)) (sin (angleDB_of l t))
                  (cos (alpha_of l t)) (sin (alpha_of l t))).
    + replace (Bx_of l t) with (distBD_of l t * cos (angleDB_of l t) + frame l) by lra.
      replace (By_of l t) with (distBD_of l t * sin (angleDB_of l t)) by lra.
      ring.
    + apply cos2_sin2.
    + apply cos2_sin2.
    + rewrite Hcos; unfold cosAlpha_of; field; split; lra.
  - transitivity (sqrt (output l ^ 2)); [f_equal | apply sqrt_pow2; lra].
    pose proof (cos2_sin2 (thetaOutput_of l t)); nra.
Qed.

(** At angle 0 the joint B is on the baseline, at [input] from A. *)
Lemma distBD_at_0 (l : LinkLengths) :
  distBD_of l 0 = Rabs (frame l - input l).
Proof.
  unfold distBD_of, Bx_of, By_of, theta_of.
  replace (0 * PI / 180) with 0 by lra.
  rewrite cos_0, sin_0, <- sqrt_Rsqr_abs.
  f_equal; unfold Rsqr; ring.
Qed.

(** ** Properties of the position solver and of the classifier *)

(** C1. [calculateJoints] returns [isValid = true] exactly when
    |coupler - output| <= distBD <= coupler + output and distBD > 0, with
    distBD the distance between B = (input cos theta, input sin theta) and
    D = (frame, 0); when it returns [isValid = false], A, B and D hold their
    coordinates and both coordinates of C are the no-value marker. *)
Theorem C1_validity (l : LinkLengths) (t : R) :
  let r := calculateJoints l t in
  let B := (input l * cos (t * PI / 180), input l * sin (t * PI / 180)) in
  let distBD := dist B (frame l, 0) in
  (isValid r = true <->
   Rabs (coupler l - output l) <= distBD <= coupler l + output l
   /\ distBD > 0)
  /\ (isValid r = false ->
      (Ax r, Ay r) = (0, 0) /\ (Bx r, By r) = B /\ (Dx r, Dy r) = (frame l, 0)
      /\ Cx r = None /\ Cy r = None).
Proof.
  intros r B distBD. split.
  - subst r distBD B. rewrite <- distBD_dist. apply isValid_true.
  - subst r. rewrite isValid_rejected, calculateJoints_locals.
    destruct (rejected l t); cbn; [intros _|discriminate].
    repeat split.
Qed.

Lemma C1_witness :
  isValid (calculateJoints (mkLinkLengths 2 1 1 1) 0) = true
  /\ Cx (calculateJoints (mkLinkLengths 10 1 1 1) 0) = None.
Proof.
  assert (H2 : distBD_of (mkLinkLengths 2 1 1 1) 0 = 1).
  { rewrite distBD_at_0; cbn; cases_abs; lra. }
  assert (H10 : distBD_of (mkLinkLengths 10 1 1 1) 0 = 9).
  { rewrite distBD_at_0; cbn; cases_abs; lra. }
  split.
  - apply (C1_validity (mkLinkLengths 2 1 1 1) 0).
    rewrite <- distBD_dist, H2; cbn; cases_abs; lra.
  - apply (C1_validity (mkLinkLengths 10 1 1 1) 0).
    rewrite isValid_rejected, negb_false_iff.
    unfold rejected; rewrite H10; cbn.
    unfold Rgtb, Rltb; destruct (Rlt_dec (1 + 1) 9); [reflexivity|lra].
Defined.

(** C2. For positive lengths, when [calculateJoints] returns
    [isValid = true] the joint C it returns is at distance [coupler] from B
    and at distance [output] from D. *)
Theorem C2_roundtrip (l : LinkLengths) (t : R) :
  positive l ->
  isValid (calculateJoints l t) = true ->
  let r := calculateJoints l t in
  exists cx cy : R,
    Cx r = Some cx /\ Cy r = Some cy
    /\ dist (Bx r, By r) (cx, cy) = coupler l
    /\ dist (cx, cy) (Dx r, Dy r) = output l.
Proof.
  intros Hpos Hv r.
  rewrite isValid_rejected, negb_true_iff in Hv.
  subst r; rewrite calculateJoints_locals, Hv; cbn [Cx Cy Bx By Dx Dy].
  exists (frame l + output l * cos (thetaOutput_of l t)),
         (0 + output l * sin (thetaOutput_of l t)).
  split; [reflexivity|]. split; [reflexivity|].
  apply accepted_distances; assumption.
Qed.

Lemma C2_witness :
  exists cx cy : R,
    Cx (calculateJoints (mkLinkLengths 2 1 1 1) 0) = Some cx
    /\ Cy (calculateJoints (mkLinkLengths 2 1 1 1) 0) = Some cy
    /\ dist (Bx (calculateJoints (mkLinkLengths 2 1 1 1) 0),
             By (calculateJoints (mkLinkLengths 2 1 1 1) 0)) (cx, cy) = 1
    /\ dist (cx, cy) (Dx (calculateJoints (mkLinkLengths 2 1 1 1) 0),
                      Dy (calculateJoints (mkLinkLengths 2 1 1 1) 0)) = 1.
Proof.
  apply (C2_roundtrip (mkLinkLengths 2 1 1 1) 0).
  - unfold positive; cbn; lra.
  - apply isValid_true. rewrite distBD_at_0; cbn; cases_abs; lra.
Defined.

(** C3. Whatever the angle and whether the frame is valid or not, A is the
    origin and D is (frame, 0), so both depend on the frame length alone;
    for positive lengths B is at distance [input] from A. *)
Theorem C3_baseline (l : LinkLengths) (t : R) :
  let r := calculateJoints l t in
  (Ax r = 0 /\ Ay r = 0 /\ Dx r = frame l /\ Dy r = 0)
  /\ (positive l -> dist (Ax r, Ay r) (Bx r, By r) = input l)
  /\ (forall (l' : LinkLengths) (t' : R),
        frame l' = frame l ->
        let r' := calculateJoints l' t' in
        (Ax r', Ay r') = (Ax r, Ay r) /\ (Dx r', Dy r') = (Dx r, Dy r)).
Proof.
  intros r.
  assert (E : forall k s,
             Ax (calculateJoints k s) = 0 /\ Ay (calculateJoints k s) = 0
             /\ Dx (calculateJoints k s) = frame k
             /\ Dy (calculateJoints k s) = 0
             /\ Bx (calculateJoints k s) = Bx_of k s
             /\ By (calculateJoints k s) = By_of k s).
  { intros k s; rewrite calculateJoints_locals.
    destruct (rejected k s); cbn; repeat split. }
  destruct (E l t) as (Eax & Eay & Edx & Edy & Ebx & Eby).
  split; [auto|]. split.
  - intros (_ & Ha & _). subst r.
    rewrite Eax, Eay, Ebx, Eby. unfold dist, Bx_of, By_of; cbn [fst snd].
    transitivity (sqrt (input l ^ 2)); [f_equal | apply sqrt_pow2; lra].
    pose proof (cos2_sin2 (theta_of t)); nra.
  - intros l' t' Hf r'. subst r r'.
    destruct (E l' t') as (-> & -> & -> & -> & _).
    rewrite Eax, Eay, Edx, Edy, Hf; split; reflexivity.
Qed.

Lemma C3_witness :
  dist (Ax (calculateJoints (mkLinkLengths 200 80 180 140) 30),
        Ay (calculateJoints (mkLinkLengths 200 80 180 140) 30))
       (Bx (calculateJoints (mkLinkLengths 200 80 180 140) 30),
        By (calculateJoints (mkLinkLengths 200 80 180 140) 30)) = 80
  /\ (Dx (calculateJoints (mkLinkLengths 200 1 1 1) 45),
      Dy (calculateJoints (mkLinkLengths 200 1 1 1) 45))
     = (Dx (calculateJoints (mkLinkLengths 200 80 180 140) 30),
        Dy (calculateJoints (mkLinkLengths 200 80 180 140) 30)).
Proof.
  split.
  - apply (C3_baseline (mkLinkLengths 200 80 180 140) 30).
    unfold positive; cbn; lra.
  - pose proof (C3_baseline (mkLinkLengths 200 80 180 140) 30) as H.
    cbv zeta in H; destruct H as (_ & _ & H).
    apply (H (mkLinkLengths 200 1 1 1) 45); reflexivity.
Defined.

(** C4. For a LinkSet that passes the Invalid and the Change Point checks:
    if S + L < P + Q the category is Double-Crank when the frame holds the
    shortest length, Crank-Rocker when the input or the output holds it,
    Double-Rocker (Type I) when the coupler holds it; if S + L > P + Q the
    category is Double-Rocker (Type II). *)
Theorem C4_grashof_sub_classes (l : LinkLengths) :
  ~ L_of l > S_of l + PQ_of l ->
  ~ Rabs ((S_of l + L_of l) - PQ_of l) < 0.01 ->
  (S_of l + L_of l < PQ_of l ->
     (length_of l FRAME = S_of l ->
      type (determineGrashof l) = DOUBLE_CRANK)
     /\ (length_of l INPUT = S_of l \/ length_of l OUTPUT = S_of l ->
         type (determineGrashof l) = CRANK_ROCKER)
     /\ (length_of l COUPLER = S_of l ->
         type (determineGrashof l) = DOUBLE_ROCKER_I))
  /\ (S_of l + L_of l > PQ_of l ->
      type (determineGrashof l) = DOUBLE_ROCKER_II).
Proof.
  intros Hinv Hcp.
  destruct (determineGrashof_cases l) as (_ & _ & ->).
  apply Rnot_gt_le, Rgtb_false in Hinv; rewrite Hinv.
  apply Rnot_lt_le, Rltb_false in Hcp; rewrite Hcp.
  split.
  - intros HG. pose proof (proj2 (Rltb_true _ _) HG) as ->.
    repeat split.
    + intros H; rewrite (grashof_shortest_unique l FRAME HG H); reflexivity.
    + intros [H|H];
        [ rewrite (grashof_shortest_unique l INPUT HG H)
        | rewrite (grashof_shortest_unique l OUTPUT HG H) ]; reflexivity.
    + intros H; rewrite (grashof_shortest_unique l COUPLER HG H); reflexivity.
  - intros HN.
    assert (E : (S_of l + L_of l <? PQ_of l) = false) by (apply Rltb_false; lra).
    rewrite E; reflexivity.
Qed.

Lemma C4_witness :
  type (determineGrashof (mkLinkLengths 50 100 120 110)) = DOUBLE_CRANK
  /\ type (determineGrashof (mkLinkLengths 200 80 180 140)) = CRANK_ROCKER
  /\ type (determineGrashof (mkLinkLengths 200 140 180 80)) = CRANK_ROCKER
  /\ type (determineGrashof (mkLinkLengths 100 110 50 120)) = DOUBLE_ROCKER_I
  /\ type (determineGrashof (mkLinkLengths 100 80 60 50)) = DOUBLE_ROCKER_II.
Proof.
  repeat split.
  - apply (C4_grashof_sub_classes (mkLinkLengths 50 100 120 110));
      numbers_at.
  - apply (C4_grashof_sub_classes (mkLinkLengths 200 80 180 140));
      try left; numbers_at.
  - apply (C4_grashof_sub_classes (mkLinkLengths 200 140 180 80));
      try right; numbers_at.
  - apply (C4_grashof_sub_classes (mkLinkLengths 100 110 50 120));
      numbers_at.
  - apply (C4_grashof_sub_classes (mkLinkLengths 100 80 60 50));
      numbers_at.
Defined.

(** C5, as the specification states it, fails: for frame 200, input 80,
    coupler 180, output 140 the category is not Crank-Rocker with shortest
    role input (80) and longest role coupler (180), since the frame, at 200,
    is longer than the coupler. *)
Lemma C5_longest_is_not_coupler :
  ~ (let r := determineGrashof (mkLinkLengths 200 80 180 140) in
     type r = CRANK_ROCKER
     /\ shortest r = INPUT
     /\ length_of (mkLinkLengths 200 80 180 140) (shortest r) = 80
     /\ longest r = COUPLER
     /\ length_of (mkLinkLengths 200 80 180 140) (longest r) = 180).
Proof.
  cbv zeta; rewrite classify_200_80_180_140; cbn.
  intros (_ & _ & _ & H & _); discriminate H.
Qed.

(** C5, amended. For frame 200, input 80, coupler 180, output 140 the
    category is Crank-Rocker, the shortest role is input (length 80) and the
    longest role is frame (length 200). *)
Theorem C5_example_crank_rocker :
  let r := determineGrashof (mkLinkLengths 200 80 180 140) in
  type r = CRANK_ROCKER
  /\ shortest r = INPUT
  /\ length_of (mkLinkLengths 200 80 180 140) (shortest r) = 80
  /\ longest r = FRAME
  /\ length_of (mkLinkLengths 200 80 180 140) (longest r) = 200.
Proof.
  cbv zeta; rewrite classify_200_80_180_140; cbn; repeat split; reflexivity.
Qed.

(** C6. If L > S + (P + Q) the category is Invalid; frame 50 with input,
    coupler and output 10 is such a LinkSet. *)
Theorem C6_invalid (l : LinkLengths) :
  (L_of l > S_of l + PQ_of l -> type (determineGrashof l) = INVALID)
  /\ type (determineGrashof (mkLinkLengths 50 10 10 10)) = INVALID.
Proof.
  split.
  - intros H. destruct (determineGrashof_cases l) as (_ & _ & ->).
    apply Rgtb_true in H; rewrite H; reflexivity.
  - rewrite classify_50_10_10_10; reflexivity.
Qed.

Lemma C6_witness :
  L_of (mkLinkLengths 50 10 10 10)
  > S_of (mkLinkLengths 50 10 10 10) + PQ_of (mkLinkLengths 50 10 10 10)
  /\ type (determineGrashof (mkLinkLengths 50 10 10 10)) = INVALID.
Proof.
  assert (H : L_of (mkLinkLengths 50 10 10 10)
              > S_of (mkLinkLengths 50 10 10 10)
                + PQ_of (mkLinkLengths 50 10 10 10)) by numbers_at.
  split; [exact H|].
  exact (proj1 (C6_invalid (mkLinkLengths 50 10 10 10)) H).
Defined.

(** C7. If the LinkSet passes the Invalid check, L <= S + (P + Q), and
    |(S + L) - (P + Q)| < 0.01, the category is Change Point; four links of
    length 100 are such a LinkSet. *)
Theorem C7_change_point (l : LinkLengths) :
  (L_of l <= S_of l + PQ_of l ->
   Rabs ((S_of l + L_of l) - PQ_of l) < 0.01 ->
   type (determineGrashof l) = CHANGE_POINT)
  /\ type (determineGrashof (mkLinkLengths 100 100 100 100)) = CHANGE_POINT.
Proof.
  split.
  - intros Hinv Hcp. destruct (determineGrashof_cases l) as (_ & _ & ->).
    apply Rgtb_false in Hinv; rewrite Hinv.
    apply Rltb_true in Hcp; rewrite Hcp; reflexivity.
  - rewrite classify_100_100_100_100; reflexivity.
Qed.

Lemma C7_witness :
  (L_of (mkLinkLengths 100 100 100 100)
   <= S_of (mkLinkLengths 100 100 100 100) + PQ_of (mkLinkLengths 100 100 100 100)
   /\ Rabs ((S_of (mkLinkLengths 100 100 100 100)
             + L_of (mkLinkLengths 100 100 100 100))
            - PQ_of (mkLinkLengths 100 100 100 100)) < 0.01)
  /\ type (determineGrashof (mkLinkLengths 100 100 100 100)) = CHANGE_POINT.
Proof.
  assert (H1 : L_of (mkLinkLengths 100 100 100 100)
               <= S_of (mkLinkLengths 100 100 100 100)
                  + PQ_of (mkLinkLengths 100 100 100 100)) by numbers_at.
  assert (H2 : Rabs ((S_of (mkLinkLengths 100 100 100 100)
                      + L_of (mkLinkLengths 100 100 100 100))
                     - PQ_of (mkLinkLengths 100 100 100 100)) < 0.01)
    by numbers_at.
  split; [split; [exact H1 | exact H2]|].
  exact (proj1 (C7_change_point (mkLinkLengths 100 100 100 100)) H1 H2).
Defined.

(** C8. The shortest (longest) role that [determineGrashof] returns is the
    first role, in the order frame, input, coupler, output, that holds the
    least (greatest) length: no role holds less (more) and every earlier role
    holds strictly more (less); it is the only role with that property.
    When the four lengths are equal both roles are frame. *)
Theorem C8_first_encountered (l : LinkLengths) :
  first_shortest l (shortest (determineGrashof l))
  /\ first_longest l (longest (determineGrashof l))
  /\ (forall r, first_shortest l r -> r = shortest (determineGrashof l))
  /\ (forall r, first_longest l r -> r = longest (determineGrashof l))
  /\ (forall x : R,
        shortest (determineGrashof (mkLinkLengths x x x x)) = FRAME
        /\ longest (determineGrashof (mkLinkLengths x x x x)) = FRAME).
Proof.
  assert (E : forall k, shortest (determineGrashof k) = role (fst (scan k))
                        /\ longest (determineGrashof k) = role (snd (scan k))).
  { intros k; destruct (determineGrashof_cases k) as (H1 & H2 & _); auto. }
  destruct (E l) as [-> ->].
  refine (conj (scan_fst_first l) (conj (scan_snd_first l)
            (conj _ (conj _ _)))).
  - intros r H; apply (first_shortest_unique l); auto using scan_fst_first.
  - intros r H; apply (first_longest_unique l); auto using scan_snd_first.
  - intros x; destruct (E (mkLinkLengths x x x x)) as [-> ->]; split.
    + cbn; unfold Rltb; cases_cmp; try reflexivity; exfalso; lra.
    + cbn; unfold Rgtb, Rltb; cases_cmp; try reflexivity; exfalso; lra.
Qed.

Lemma C8_witness :
  INPUT = shortest (determineGrashof (mkLinkLengths 90 70 70 90))
  /\ FRAME = longest (determineGrashof (mkLinkLengths 90 70 70 90)).
Proof.
  split.
  - apply (C8_first_encountered (mkLinkLengths 90 70 70 90)).
    intros r'; destruct r'; cbn; split; intros; first [lra | exfalso; lia].
  - apply (C8_first_encountered (mkLinkLengths 90 70 70 90)).
    intros r'; destruct r'; cbn; split; intros; first [lra | exfalso; lia].
Defined.



(** C10. [determineGrashof] is a total function of four real lengths, of any
    sign: its result is one of the six categories with a shortest and a
    longest role among the four.  Double-Rocker (Type II) is returned exactly
    when the Invalid check passes and S + L exceeds P + Q by at least the
    tolerance 0.01; in particular never when S + L < P + Q, where one of
    Double-Crank, Crank-Rocker and Double-Rocker (Type I) is returned unless
    the LinkSet is Invalid or a Change Point. *)
Theorem C10_total_and_exhaustive (d a b c : R) :
  let l := mkLinkLengths d a b c in
  let r := determineGrashof l in
  (type r = CRANK_ROCKER \/ type r = DOUBLE_CRANK \/ type r = DOUBLE_ROCKER_I
   \/ type r = DOUBLE_ROCKER_II \/ type r = CHANGE_POINT \/ type r = INVALID)
  /\ In (shortest r) [FRAME; INPUT; COUPLER; OUTPUT]
  /\ In (longest r) [FRAME; INPUT; COUPLER; OUTPUT]
  /\ (type r = DOUBLE_ROCKER_II <->
      L_of l <= S_of l + PQ_of l /\ 0.01 <= (S_of l + L_of l) - PQ_of l)
  /\ (type r = DOUBLE_ROCKER_II -> S_of l + L_of l > PQ_of l)
  /\ (S_of l + L_of l < PQ_of l ->
      type r = INVALID \/ type r = CHANGE_POINT
      \/ type r = DOUBLE_CRANK \/ type r = CRANK_ROCKER
      \/ type r = DOUBLE_ROCKER_I).
Proof.
  intros l r.
  assert (T : type r = DOUBLE_ROCKER_II <->
              L_of l <= S_of l + PQ_of l /\ 0.01 <= (S_of l + L_of l) - PQ_of l).
  { subst r. destruct (determineGrashof_cases l) as (_ & _ & ->).
    unfold Rgtb, Rltb.
    destruct (Rlt_dec (S_of l + PQ_of l) (L_of l));
      [split; [discriminate | lra]|].
    destruct (Rlt_dec (Rabs (S_of l + L_of l - PQ_of l)) 0.01) as [h|h];
      [split; [discriminate | revert h; cases_abs; lra]|].
    destruct (Rlt_dec (S_of l + L_of l) (PQ_of l)) as [g|g].
    - split; [destruct (role (fst (scan l))); discriminate | lra].
    - split; [intros _|reflexivity]. revert h; cases_abs; lra. }
  refine (conj _ (conj _ (conj _ (conj T (conj _ _))))).
  - destruct (type r); auto 10.
  - destruct (shortest r); cbn; auto.
  - destruct (longest r); cbn; auto.
  - intros H; apply T in H; lra.
  - intros H. destruct (type r) eqn:Et; auto 10.
    destruct (proj1 T eq_refl); lra.
Qed.

Lemma C10_witness :
  S_of (mkLinkLengths 100 80 60 50) + L_of (mkLinkLengths 100 80 60 50)
  > PQ_of (mkLinkLengths 100 80 60 50).
Proof.
  apply (C10_total_and_exhaustive 100 80 60 50).
  rewrite classify_100_80_60_50; reflexivity.
Defined.

(** ** Further properties: the solver over a turn of the crank *)




(** The square of [distBD], by the law of cosines in the triangle A-B-D. *)
Lemma distBD_sqr (l : LinkLengths) (t : R) :
  (frame l - Bx_of l t) ^ 2 + (0 - By_of l t) ^ 2
  = frame l ^ 2 + input l ^ 2 - 2 * input l * frame l * cos (theta_of t).
Proof.
  unfold Bx_of, By_of. pose proof (cos2_sin2 (theta_of t)) as H.
  replace ((frame l - input l * cos (theta_of t)) ^ 2
           + (0 - input l * sin (theta_of t)) ^ 2)
    with (frame l ^ 2
          + input l ^ 2 * (cos (theta_of t) * cos (theta_of t)
                           + sin (theta_of t) * sin (theta_of t))
          - 2 * input l * frame l * cos (theta_of t)) by ring.
  rewrite H; ring.
Qed.

(** B stays on its circle around A, so its distance to D is between
    |frame - input| and frame + input. *)
Lemma distBD_bounds (l : LinkLengths) (t : R) :
  0 <= frame l -> 0 <= input l ->
  Rabs (frame l - input l) <= distBD_of l t <= frame l + input l.
Proof.
  intros Hd Ha. unfold distBD_of. rewrite distBD_sqr.
  pose proof (COS_bound (theta_of t)) as [Hc1 Hc2].
  assert (Had : 0 <= input l * frame l) by (apply Rmult_le_pos; assumption).
  assert (H1 : 0 <= input l * frame l * (1 - cos (theta_of t)))
    by (apply Rmult_le_pos; lra).
  assert (H2 : 0 <= input l * frame l * (1 + cos (theta_of t)))
    by (apply Rmult_le_pos; lra).
  split.
  - rewrite <- sqrt_Rsqr_abs. apply sqrt_le_1_alt. unfold Rsqr. lra.
  - rewrite <- (sqrt_pow2 (frame l + input l)) by lra.
    apply sqrt_le_1_alt. lra.
Qed.

Lemma distBD_at_180 (l : LinkLengths) :
  distBD_of l 180 = Rabs (frame l + input l).
Proof.
  unfold distBD_of, Bx_of, By_of, theta_of.
  replace (180 * PI / 180) with PI by field.
  rewrite cos_PI, sin_PI, <- sqrt_Rsqr_abs.
  f_equal; unfold Rsqr; ring.
Qed.

(** What the category says about S, L and P + Q, and which roles hold them. *)
Lemma type_cases (l : LinkLengths) :
  let r := determineGrashof l in
  length_of l (shortest r) = S_of l
  /\ length_of l (longest r) = L_of l
  /\ first_shortest l (shortest r)
  /\ first_longest l (longest r)
  /\ ((type r = INVALID /\ L_of l > S_of l + PQ_of l)
      \/ (type r = CHANGE_POINT /\ L_of l <= S_of l + PQ_of l
          /\ Rabs ((S_of l + L_of l) - PQ_of l) < 0.01)
      \/ (type r = grashof_ladder (shortest r) /\ L_of l <= S_of l + PQ_of l
          /\ S_of l + L_of l <= PQ_of l - 0.01)
      \/ (type r = DOUBLE_ROCKER_II /\ L_of l <= S_of l + PQ_of l
          /\ PQ_of l + 0.01 <= S_of l + L_of l)).
Proof.
  intros r; subst r.
  destruct (determineGrashof_cases l) as (-> & -> & ->).
  rewrite <- scan_fst_len, <- scan_snd_len, scan_S, scan_L.
  refine (conj eq_refl (conj eq_refl
            (conj (scan_fst_first l) (conj (scan_snd_first l) _)))).
  unfold Rgtb, Rltb.
  destruct (Rlt_dec (S_of l + PQ_of l) (L_of l)); [left; split; [reflexivity|lra]|].
  destruct (Rlt_dec (Rabs (S_of l + L_of l - PQ_of l)) 0.01) as [h|h];
    [right; left; repeat split; [lra | exact h]|].
  destruct (Rlt_dec (S_of l + L_of l) (PQ_of l)) as [g|g].
  - right; right; left; repeat split; [lra|]. revert h; cases_abs; lra.
  - right; right; right; repeat split; [lra|]. revert h; cases_abs; lra.
Qed.

(** The frame at angle [t] is valid as soon as the whole range of [distBD]
    passes the test. *)
Lemma valid_from_range (l : LinkLengths) (t : R) :
  positive l ->
  Rabs (coupler l - output l) <= Rabs (frame l - input l) ->
  frame l + input l <= coupler l + output l ->
  frame l <> input l ->
  isValid (calculateJoints l t) = true.
Proof.
  intros (Hd & Ha & _) H1 H2 H3.
  destruct (distBD_bounds l t) as [B1 B2]; try lra.
  apply isValid_true. repeat split; try lra.
  assert (0 < Rabs (frame l - input l)) by (apply Rabs_pos_lt; lra). lra.
Qed.

(** A frame valid at angle 0 and at angle 180 bounds the range of [distBD]. *)
Lemma range_from_valid (l : LinkLengths) :
  positive l ->
  isValid (calculateJoints l 0) = true ->
  isValid (calculateJoints l 180) = true ->
  Rabs (coupler l - output l) <= Rabs (frame l - input l)
  /\ frame l + input l <= coupler l + output l.
Proof.
  intros (Hd & Ha & _) H0 H180.
  apply isValid_true in H0; rewrite distBD_at_0 in H0.
  apply isValid_true in H180; rewrite distBD_at_180 in H180.
  rewrite (Rabs_pos_eq (frame l + input l)) in H180 by lra. lra.
Qed.

(** X3. Double-Crank, and Crank-Rocker with the input as the crank: the input
    link makes full turns, that is, for positive lengths the solver accepts
    every angle. *)
Theorem crank_makes_full_turns (l : LinkLengths) (t : R) :
  positive l ->
  type (determineGrashof l) = DOUBLE_CRANK
  \/ (type (determineGrashof l) = CRANK_ROCKER
      /\ shortest (determineGrashof l) = INPUT) ->
  isValid (calculateJoints l t) = true.
Proof.
  intros Hpos Ht.
  destruct (type_cases l) as (Hs & _ & _ & _ & Hc).
  assert (Hr : (shortest (determineGrashof l) = FRAME
                \/ shortest (determineGrashof l) = INPUT)
               /\ S_of l + L_of l <= PQ_of l - 0.01).
  { destruct Hc as [[E _]|[[E _]|[(E & _ & G)|[E _]]]];
      destruct Ht as [T|[T T']]; rewrite T in E; try discriminate E;
      split; auto.
    destruct (shortest (determineGrashof l)); try discriminate E; auto. }
  destruct Hr as [Hr HG].
  assert (HS : frame l = S_of l \/ input l = S_of l).
  { destruct Hr as [E|E]; rewrite E in Hs; cbn in Hs; auto. }
  clear Hs Hc Hr Ht.
  destruct Hpos as (Hd & Ha & Hb & Hc).
  apply valid_from_range; [unfold positive; auto| | |];
    revert HS HG; unfold PQ_of, S_of, L_of; cases_minmax; cases_abs;
    intros [HS|HS] HG; lra.
Qed.

Lemma crank_makes_full_turns_witness :
  isValid (calculateJoints (mkLinkLengths 200 80 180 140) 123) = true.
Proof.
  apply crank_makes_full_turns.
  - unfold positive; cbn; lra.
  - right. rewrite classify_200_80_180_140. split; reflexivity.
Defined.

(** X4. In every other category but Change Point the input link cannot make a
    full turn: for positive lengths the solver rejects angle 0 or angle
    180. *)
Theorem crank_is_blocked (l : LinkLengths) :
  positive l ->
  type (determineGrashof l) = DOUBLE_ROCKER_II
  \/ type (determineGrashof l) = DOUBLE_ROCKER_I
  \/ type (determineGrashof l) = INVALID
  \/ (type (determineGrashof l) = CRANK_ROCKER
      /\ shortest (determineGrashof l) = OUTPUT) ->
  isValid (calculateJoints l 0) = false
  \/ isValid (calculateJoints l 180) = false.
Proof.
  intros Hpos Ht.
  destruct (isValid (calculateJoints l 0)) eqn:H0; [|auto].
  destruct (isValid (calculateJoints l 180)) eqn:H180; [|auto].
  exfalso.
  destruct (range_from_valid l Hpos H0 H180) as [R1 R2].
  destruct (type_cases l) as (Hs & _ & Hf & _ & Hc).
  assert (Hr : PQ_of l < S_of l + L_of l
               \/ shortest (determineGrashof l) = COUPLER
               \/ shortest (determineGrashof l) = OUTPUT).
  { destruct Hc as [[E G]|[[E _]|[(E & _ & G)|(E & _ & G)]]];
      destruct Ht as [T|[T|[T|[T T']]]]; rewrite T in E; try discriminate E;
      auto; try (left; lra);
      try (destruct (shortest (determineGrashof l)); try discriminate E;
           auto; fail).
    left. destruct Hpos as (Pd & Pa & Pb & Pc).
    revert G; unfold PQ_of, S_of, L_of; cases_minmax; lra. }
  clear Hc. destruct Hpos as (Hd & Ha & Hb & Hc).
  destruct Hr as [G|[E|E]].
  - revert G R1; unfold PQ_of, S_of, L_of; cases_minmax; cases_abs; lra.
  - rewrite E in Hf.
    pose proof (Hf FRAME) as [_ F1]; pose proof (Hf INPUT) as [_ F2];
      pose proof (proj1 (Hf OUTPUT)) as F3; cbn in F1, F2, F3.
    specialize (F1 ltac:(lia)); specialize (F2 ltac:(lia)).
    revert R1; cases_abs; lra.
  - rewrite E in Hf.
    pose proof (Hf FRAME) as [_ F1]; pose proof (Hf INPUT) as [_ F2];
      pose proof (Hf COUPLER) as [_ F3]; cbn in F1, F2, F3.
    specialize (F1 ltac:(lia)); specialize (F2 ltac:(lia));
      specialize (F3 ltac:(lia)).
    revert R1; cases_abs; lra.
Qed.

Lemma crank_is_blocked_witness :
  isValid (calculateJoints (mkLinkLengths 100 80 60 50) 0) = false
  \/ isValid (calculateJoints (mkLinkLengths 100 80 60 50) 180) = false.
Proof.
  apply crank_is_blocked.
  - unfold positive; cbn; lra.
  - left. rewrite classify_100_80_60_50. reflexivity.
Defined.

(** X5. Invalid Geometry is invalid at every angle: when the longest link
    exceeds the other three together, the solver rejects every angle. *)
Theorem invalid_at_every_angle (l : LinkLengths) (t : R) :
  positive l ->
  type (determineGrashof l) = INVALID ->
  isValid (calculateJoints l t) = false.
Proof.
  intros Hpos Ht.
  destruct (isValid (calculateJoints l t)) eqn:Hv; [exfalso|reflexivity].
  apply isValid_true in Hv.
  destruct Hpos as (Hd & Ha & Hb & Hc).
  destruct (distBD_bounds l t) as [B1 B2]; try lra.
  destruct (type_cases l) as (_ & _ & _ & _ & Hcase).
  assert (G : L_of l > S_of l + PQ_of l).
  { destruct Hcase as [[_ G]|[[E _]|[(E & _)|[E _]]]];
      [exact G | | |]; rewrite Ht in E; try discriminate E.
    destruct (shortest (determineGrashof l)); discriminate E. }
  revert G Hv B1; unfold PQ_of, S_of, L_of; cases_minmax; cases_abs; lra.
Qed.

Lemma invalid_at_every_angle_witness :
  isValid (calculateJoints (mkLinkLengths 50 10 10 10) 77) = false.
Proof.
  apply invalid_at_every_angle.
  - unfold positive; cbn; lra.
  - rewrite classify_50_10_10_10; reflexivity.
Defined.

(** [angleDB] is the direction from D to B. *)
Lemma angleDB_polar (l : LinkLengths) (t : R) :
  distBD_of l t > 0 ->
  distBD_of l t * cos (angleDB_of l t) = Bx_of l t - frame l
  /\ distBD_of l t * sin (angleDB_of l t) = By_of l t - 0.
Proof.
  intros HD. unfold distBD_of, angleDB_of in *.
  replace ((frame l - Bx_of l t) ^ 2 + (0 - By_of l t) ^ 2)
    with ((Bx_of l t - frame l) ^ 2 + (By_of l t - 0) ^ 2) in * by ring.
  apply atan2_polar.
  destruct (Req_dec (Bx_of l t - frame l) 0) as [E1|E1]; [|left; exact E1].
  destruct (Req_dec (By_of l t - 0) 0) as [E2|E2]; [|right; exact E2].
  exfalso. rewrite E1, E2 in HD.
  replace (0 ^ 2 + 0 ^ 2) with 0 in HD by ring. rewrite sqrt_0 in HD; lra.
Qed.

(** X2. Of the two places where the circles around B and D meet, the solver
    always takes the one on the same side: seen from D, the joint C is never
    counter-clockwise of B.  The cross product of D->B and D->C is
    - distBD * output * sin alpha, which is not positive. *)
Theorem elbow_on_one_side (l : LinkLengths) (t : R) :
  positive l ->
  isValid (calculateJoints l t) = true ->
  let r := calculateJoints l t in
  exists cx cy : R,
    Cx r = Some cx /\ Cy r = Some cy
    /\ (Bx r - Dx r) * (cy - Dy r) - (By r - Dy r) * (cx - Dx r)
       = - (distBD_of l t * output l * sin (alpha_of l t))
    /\ (Bx r - Dx r) * (cy - Dy r) - (By r - Dy r) * (cx - Dx r) <= 0.
Proof.
  intros (Hd & Ha & Hb & Hc) Hv r.
  pose proof (proj1 (isValid_true l t) Hv) as [_ HD].
  rewrite isValid_rejected, negb_true_iff in Hv.
  subst r; rewrite calculateJoints_locals, Hv; cbn [Cx Cy Bx By Dx Dy].
  exists (frame l + output l * cos (thetaOutput_of l t)),
         (0 + output l * sin (thetaOutput_of l t)).
  split; [reflexivity|]. split; [reflexivity|].
  destruct (angleDB_polar l t HD) as [Px Py].
  assert (E : (Bx_of l t - frame l)
              * (0 + output l * sin (thetaOutput_of l t) - 0)
              - (By_of l t - 0)
                * (frame l + output l * cos (thetaOutput_of l t) - frame l)
              = - (distBD_of l t * output l * sin (alpha_of l t))).
  { replace (By_of l t) with (By_of l t - 0) at 1 by ring.
    rewrite <- Px, <- Py. unfold thetaOutput_of.
    rewrite cos_minus, sin_minus.
    pose proof (cos2_sin2 (angleDB_of l t)) as H1.
    replace (distBD_of l t * cos (angleDB_of l t)
             * (0 + output l * (sin (angleDB_of l t) * cos (alpha_of l t)
                                - cos (angleDB_of l t) * sin (alpha_of l t)) - 0)
             - (distBD_of l t * sin (angleDB_of l t) - 0)
               * (frame l + output l * (cos (angleDB_of l t) * cos (alpha_of l t)
                                        + sin (angleDB_of l t) * sin (alpha_of l t))
                  - frame l))
      with (- (distBD_of l t * output l * sin (alpha_of l t)
               * (cos (angleDB_of l t) * cos (angleDB_of l t)
                  + sin (angleDB_of l t) * sin (angleDB_of l t)))) by ring.
    rewrite H1; ring. }
  split; [exact E|]. rewrite E.
  assert (0 <= sin (alpha_of l t)).
  { unfold alpha_of.
    destruct (acos_bound (Rmin (Rmax (cosAlpha_of l t) (-1)) 1)).
    apply sin_ge_0; assumption. }
  assert (0 <= distBD_of l t * output l) by (apply Rmult_le_pos; lra).
  nra.
Qed.

Lemma elbow_on_one_side_witness :
  exists cx cy : R,
    Cx (calculateJoints (mkLinkLengths 2 1 1 1) 0) = Some cx
    /\ Cy (calculateJoints (mkLinkLengths 2 1 1 1) 0) = Some cy
    /\ (Bx (calculateJoints (mkLinkLengths 2 1 1 1) 0)
        - Dx (calculateJoints (mkLinkLengths 2 1 1 1) 0))
       * (cy - Dy (calculateJoints (mkLinkLengths 2 1 1 1) 0))
       - (By (calculateJoints (mkLinkLengths 2 1 1 1) 0)
          - Dy (calculateJoints (mkLinkLengths 2 1 1 1) 0))
         * (cx - Dx (calculateJoints (mkLinkLengths 2 1 1 1) 0)) <= 0.
Proof.
  destruct (elbow_on_one_side (mkLinkLengths 2 1 1 1) 0) as (cx & cy & H).
  - unfold positive; cbn; lra.
  - apply isValid_true. rewrite distBD_at_0; cbn; cases_abs; lra.
  - exists cx, cy. cbv zeta in H. tauto.
Defined.

(** ** Further properties: the animation *)

Lemma animate_cases (l : LinkLengths) (s : R) (st : AnimState) :
  (isValid (calculateJoints l (angle st + s * direction st)) = true
   /\ animate l s st
      = mkAnimState (angle st + s * direction st) (direction st))
  \/ (isValid (calculateJoints l (angle st + s * direction st)) = false
      /\ animate l s st
         = mkAnimState (angle st + s * (direction st * -1))
                       (direction st * -1)).
Proof.
  unfold animate; cbv zeta.
  destruct (isValid (calculateJoints l (angle st + s * direction st)));
    [left|right]; split; reflexivity.
Qed.

(** X9. The direction cell starts at 1 and a tick only ever flips its sign, so
    it is 1 or -1 after any number of ticks; every tick moves the angle by
    exactly |speed|, forward or back, so [n] ticks move it by at most
    n |speed|. *)
Theorem ticks_direction_and_drift (l : LinkLengths) (s : R) (n : nat)
  (st : AnimState) :
  direction st = 1 \/ direction st = -1 ->
  (direction (ticks l s n st) = 1 \/ direction (ticks l s n st) = -1)
  /\ Rabs (angle (animate l s st) - angle st) = Rabs s
  /\ Rabs (angle (ticks l s n st) - angle st) <= INR n * Rabs s.
Proof.
  intros Hd.
  assert (Step : forall st0,
             direction st0 = 1 \/ direction st0 = -1 ->
             (direction (animate l s st0) = 1
              \/ direction (animate l s st0) = -1)
             /\ Rabs (angle (animate l s st0) - angle st0) = Rabs s).
  { intros st0 H0.
    destruct (animate_cases l s st0) as [[_ ->]|[_ ->]]; cbn [direction angle];
      destruct H0 as [-> | ->];
      (split; [lra | cases_abs; lra]). }
  split; [|split; [apply Step, Hd|]]; revert st Hd.
  - induction n as [|n IH]; intros st Hd; cbn [ticks]; [exact Hd|].
    apply IH, Step, Hd.
  - induction n as [|n IH]; intros st Hd.
    + cbn [ticks INR]. replace (angle st - angle st) with 0 by ring.
      rewrite Rabs_R0; lra.
    + cbn [ticks]. rewrite S_INR.
      destruct (Step st Hd) as [Hd' Hs].
      specialize (IH (animate l s st) Hd').
      replace (angle (ticks l s n (animate l s st)) - angle st)
        with ((angle (ticks l s n (animate l s st)) - angle (animate l s st))
              + (angle (animate l s st) - angle st)) by ring.
      eapply Rle_trans; [apply Rabs_triang|]. lra.
Qed.

Lemma ticks_direction_and_drift_witness :
  (direction (ticks initialLengths 1 25 initialAnim) = 1
   \/ direction (ticks initialLengths 1 25 initialAnim) = -1)
  /\ Rabs (angle (ticks initialLengths 1 25 initialAnim) - 90) <= 25 * Rabs 1.
Proof.
  destruct (ticks_direction_and_drift initialLengths 1 25 initialAnim)
    as (H1 & _ & H3).
  - left; reflexivity.
  - split; [exact H1|].
    replace 25 with (INR 25) by (cbn; lra). exact H3.
Defined.

(** X10. When the input link makes full turns (Double-Crank, or Crank-Rocker
    with the input as the crank) the animation never reverses: after [n]
    ticks the direction is unchanged and the angle has advanced by [n]
    steps. *)
Theorem animation_keeps_turning (l : LinkLengths) (s : R) (n : nat)
  (st : AnimState) :
  positive l ->
  type (determineGrashof l) = DOUBLE_CRANK
  \/ (type (determineGrashof l) = CRANK_ROCKER
      /\ shortest (determineGrashof l) = INPUT) ->
  ticks l s n st
  = mkAnimState (angle st + INR n * (s * direction st)) (direction st).
Proof.
  intros Hpos Ht. revert st.
  induction n as [|n IH]; intros st.
  - cbn [ticks INR]. destruct st as [a d]; cbn. f_equal; ring.
  - cbn [ticks]. rewrite IH, S_INR.
    destruct (animate_cases l s st) as [[_ ->]|[H _]].
    + cbn [angle direction]. f_equal; ring.
    + rewrite (crank_makes_full_turns l _ Hpos Ht) in H; discriminate H.
Qed.

Lemma animation_keeps_turning_witness :
  ticks initialLengths 1 360 initialAnim
  = mkAnimState (90 + INR 360 * (1 * 1)) 1.
Proof.
  apply (animation_keeps_turning initialLengths 1 360 initialAnim).
  - unfold positive, initialLengths; cbn; lra.
  - right. unfold initialLengths. rewrite classify_200_80_180_140.
    split; reflexivity.
Defined.

(** X11. With Invalid Geometry every tick is a bounce, and two bounces undo each
    other: the animation swings between two angles, and two ticks give back
    the state. *)
Theorem animation_swings_when_invalid (l : LinkLengths) (s : R)
  (st : AnimState) :
  positive l ->
  type (determineGrashof l) = INVALID ->
  animate l s st
  = mkAnimState (angle st - s * direction st) (- direction st)
  /\ animate l s (animate l s st) = st.
Proof.
  intros Hpos Ht.
  assert (B : forall st0,
             animate l s st0
             = mkAnimState (angle st0 + s * (direction st0 * -1))
                           (direction st0 * -1)).
  { intros st0. destruct (animate_cases l s st0) as [[H _]|[_ H]]; [|exact H].
    rewrite (invalid_at_every_angle l _ Hpos Ht) in H; discriminate H. }
  split.
  - rewrite B. f_equal; ring.
  - rewrite (B (animate l s st)), (B st). cbn [angle direction].
    destruct st as [a d]; cbn. f_equal; ring.
Qed.

Lemma animation_swings_when_invalid_witness :
  animate (mkLinkLengths 50 10 10 10) 1
    (animate (mkLinkLengths 50 10 10 10) 1 initialAnim) = initialAnim.
Proof.
  apply (animation_swings_when_invalid (mkLinkLengths 50 10 10 10) 1).
  - unfold positive; cbn; lra.
  - rewrite classify_50_10_10_10; reflexivity.
Defined.

(** ** Further properties: the controls *)




(** X13. An edit through a slider writes the length of its key and no other;
    lengths that were inside the ranges of the four sliders stay inside
    them, and such lengths are positive, as the solver and the classifier
    expect. *)
Theorem handleLengthChange_keeps_ranges (l : LinkLengths) (s : Slider)
  (v : R) :
  in_slider_ranges l ->
  In s sliders ->
  min s <= v <= max s ->
  let l' := handleLengthChange l (key s) v in
  get_length l' (key s) = v
  /\ (forall k, k <> key s -> get_length l' k = get_length l k)
  /\ in_slider_ranges l'
  /\ positive l'.
Proof.
  intros Hl Hs Hv l'.
  assert (Ha := Hl (mkSlider key_input 20 200) ltac:(cbn; auto)).
  assert (Hb := Hl (mkSlider key_coupler 20 300) ltac:(cbn; auto)).
  assert (Hc := Hl (mkSlider key_output 20 200) ltac:(cbn; auto 6)).
  assert (Hd := Hl (mkSlider key_frame 50 300) ltac:(cbn; auto 6)).
  cbn in Ha, Hb, Hc, Hd.
  assert (Hr : in_slider_ranges l').
  { intros s' Hs'. subst l'.
    cbn in Hs, Hs'.
    destruct Hs as [<-|[<-|[<-|[<-|[]]]]];
      destruct Hs' as [<-|[<-|[<-|[<-|[]]]]]; cbn in *; lra. }
  refine (conj _ (conj _ (conj Hr _))).
  - subst l'; destruct (key s); reflexivity.
  - intros k Hk. subst l'.
    destruct (key s), k; try reflexivity; contradiction Hk; reflexivity.
  - assert (Ha' := Hr (mkSlider key_input 20 200) ltac:(cbn; auto)).
    assert (Hb' := Hr (mkSlider key_coupler 20 300) ltac:(cbn; auto)).
    assert (Hc' := Hr (mkSlider key_output 20 200) ltac:(cbn; auto 6)).
    assert (Hd' := Hr (mkSlider key_frame 50 300) ltac:(cbn; auto 6)).
    cbn [min max key get_length] in Ha', Hb', Hc', Hd'.
    unfold positive; lra.
Qed.

Lemma handleLengthChange_keeps_ranges_witness :
  in_slider_ranges (handleLengthChange initialLengths key_coupler 300)
  /\ positive (handleLengthChange initialLengths key_coupler 300).
Proof.
  assert (H0 : in_slider_ranges initialLengths).
  { intros s Hs. cbn in Hs.
    destruct Hs as [<-|[<-|[<-|[<-|[]]]]]; cbn; lra. }
  destruct (handleLengthChange_keeps_ranges initialLengths
              (mkSlider key_coupler 20 300) 300 H0)
    as (_ & _ & H1 & H2).
  - cbn; auto.
  - cbn; lra.
  - split; [exact H1 | exact H2].
Defined.

(** ** Further properties: the analysis panel *)

(** The numbers of the panel are S, L and P + Q of the classifier, in
    ascending order. *)
Lemma InfoPanel_numbers (l : LinkLengths) :
  let p := InfoPanel l in
  panelS p = S_of l
  /\ panelL p = L_of l
  /\ sumSL p = S_of l + L_of l
  /\ sumPQ p = PQ_of l
  /\ panelS p <= panelP p <= panelQ p
  /\ panelQ p <= panelL p.
Proof.
  intros p; subst p.
  destruct l as [d a b c].
  unfold InfoPanel, PQ_of, S_of, L_of;
    cbn [frame input coupler output sort
         panelS panelL panelP panelQ sumSL sumPQ].
  cases_sort; cases_minmax; repeat split; lra.
Qed.

Lemma InfoPanel_verdict (l : LinkLengths) :
  isGrashof (InfoPanel l) = (S_of l + L_of l <=? PQ_of l)
  /\ relation (InfoPanel l)
     = (if S_of l + L_of l <? PQ_of l then "<"%string
        else if S_of l + L_of l >? PQ_of l then ">"%string
        else "="%string).
Proof.
  destruct (InfoPanel_numbers l) as (_ & _ & <- & <- & _).
  split; reflexivity.
Qed.

(** X14. The panel sorts the four lengths again instead of using the result of
    the classifier; the two agree.  The numbers it prints for S and L are
    the lengths of the roles the classifier names as shortest and longest,
    its P + Q is the classifier's, and S <= P <= Q <= L. *)
Theorem InfoPanel_agrees_with_classifier (l : LinkLengths) :
  let p := InfoPanel l in
  let r := determineGrashof l in
  panelS p = length_of l (shortest r)
  /\ panelL p = length_of l (longest r)
  /\ sumSL p = S_of l + L_of l
  /\ sumPQ p = PQ_of l
  /\ panelS p <= panelP p <= panelQ p
  /\ panelQ p <= panelL p.
Proof.
  intros p r. subst p r.
  destruct (type_cases l) as (-> & -> & _).
  apply InfoPanel_numbers.
Qed.

(** X15. The verdict of the panel goes with the category of the classifier: for
    Double-Crank, Crank-Rocker and Double-Rocker (Type I) the panel prints
    S + L < P + Q and "Condition Met"; for Double-Rocker (Type II), and for
    Invalid Geometry of positive lengths, it prints S + L > P + Q and
    "Condition Failed"; for Change Point its two sums differ by less than
    0.01. *)
Theorem InfoPanel_verdict_matches_category (l : LinkLengths) :
  let p := InfoPanel l in
  let r := determineGrashof l in
  (type r = DOUBLE_CRANK \/ type r = CRANK_ROCKER \/ type r = DOUBLE_ROCKER_I ->
   isGrashof p = true /\ relation p = "<"%string)
  /\ (type r = DOUBLE_ROCKER_II \/ (type r = INVALID /\ positive l) ->
      isGrashof p = false /\ relation p = ">"%string)
  /\ (type r = CHANGE_POINT -> Rabs (sumSL p - sumPQ p) < 0.01).
Proof.
  intros p r; subst p r.
  destruct (InfoPanel_verdict l) as [-> ->].
  destruct (InfoPanel_numbers l) as (_ & _ & -> & -> & _).
  destruct (type_cases l) as (_ & _ & _ & _ & Hc).
  unfold Rleb, Rgtb, Rltb.
  refine (conj _ (conj _ _)).
  - intros Ht.
    assert (G : S_of l + L_of l <= PQ_of l - 0.01).
    { destruct Hc as [[E _]|[[E _]|[(_ & _ & G)|[E _]]]]; [| |exact G|];
        destruct Ht as [T|[T|T]]; rewrite T in E; discriminate E. }
    destruct (Rle_dec (S_of l + L_of l) (PQ_of l)); [|lra].
    destruct (Rlt_dec (S_of l + L_of l) (PQ_of l)); [|lra].
    split; reflexivity.
  - intros Ht.
    assert (G : PQ_of l < S_of l + L_of l).
    { destruct Hc as [[E G]|[[E _]|[(E & _ & G)|(E & _ & G)]]];
        destruct Ht as [T|[T (Pd & Pa & Pb & Pc)]]; rewrite T in E;
        try discriminate E; try lra.
      - revert G; unfold PQ_of, S_of, L_of; cases_minmax; lra.
      - destruct (shortest (determineGrashof l)); discriminate E.
      - destruct (shortest (determineGrashof l)); discriminate E. }
    destruct (Rle_dec (S_of l + L_of l) (PQ_of l)); [lra|].
    destruct (Rlt_dec (S_of l + L_of l) (PQ_of l)); [lra|].
    destruct (Rlt_dec (PQ_of l) (S_of l + L_of l)); [|lra].
    split; reflexivity.
  - intros Ht.
    destruct Hc as [[E _]|[(_ & _ & G)|[(E & _)|[E _]]]]; [|exact G| |];
      rewrite Ht in E; try discriminate E.
    destruct (shortest (determineGrashof l)); discriminate E.
Qed.

Lemma InfoPanel_verdict_matches_category_witness :
  (isGrashof (InfoPanel initialLengths) = true
   /\ relation (InfoPanel initialLengths) = "<"%string)
  /\ (isGrashof (InfoPanel (mkLinkLengths 100 80 60 50)) = false
      /\ relation (InfoPanel (mkLinkLengths 100 80 60 50)) = ">"%string)
  /\ Rabs (sumSL (InfoPanel (mkLinkLengths 100 100 100 100))
           - sumPQ (InfoPanel (mkLinkLengths 100 100 100 100))) < 0.01.
Proof.
  refine (conj _ (conj _ _)).
  - apply (InfoPanel_verdict_matches_category initialLengths).
    right; left. unfold initialLengths.
    rewrite classify_200_80_180_140; reflexivity.
  - apply (InfoPanel_verdict_matches_category (mkLinkLengths 100 80 60 50)).
    left. rewrite classify_100_80_60_50; reflexivity.
  - apply (InfoPanel_verdict_matches_category (mkLinkLengths 100 100 100 100)).
    rewrite classify_100_100_100_100; reflexivity.
Defined.

Lemma integral_minmax (x y : R) :
  (exists z : Z, x = IZR z) -> (exists z : Z, y = IZR z) ->
  (exists z : Z, Rmin x y = IZR z) /\ (exists z : Z, Rmax x y = IZR z).
Proof.
  intros Hx Hy; split; cases_minmax; assumption.
Qed.

Lemma small_integer_is_zero (k : Z) : Rabs (IZR k) < 0.01 -> IZR k = 0.
Proof.
  intros H.
  destruct (Z.eq_dec k 0) as [->|Hk]; [reflexivity|exfalso].
  assert (Hc : (k <= -1)%Z \/ (1 <= k)%Z) by lia.
  destruct Hc as [Hc|Hc]; apply IZR_le in Hc; revert H; cases_abs; lra.
Qed.

(** X16. The tolerance 0.01 of the Change Point test is for rounding only.  On
    positive whole lengths, the only ones the sliders produce, the category
    is Change Point exactly when S + L = P + Q, which is exactly when the
    panel prints "=". *)
Theorem change_point_on_whole_lengths (l : LinkLengths) :
  integral l ->
  positive l ->
  (type (determineGrashof l) = CHANGE_POINT <-> S_of l + L_of l = PQ_of l)
  /\ (type (determineGrashof l) = CHANGE_POINT <->
      relation (InfoPanel l) = "="%string).
Proof.
  intros (zd & za & zb & zc & ->) (Pd & Pa & Pb & Pc).
  set (l := mkLinkLengths (IZR zd) (IZR za) (IZR zb) (IZR zc)) in *.
  cbn [frame input coupler output l] in Pd, Pa, Pb, Pc.
  assert (HZ : exists k : Z, S_of l + L_of l - PQ_of l = IZR k).
  { unfold PQ_of, S_of, L_of; cbn [frame input coupler output l].
    destruct (integral_minmax (IZR zd) (IZR za)) as [[m1 ->] [M1 ->]]; eauto.
    destruct (integral_minmax (IZR zb) (IZR zc)) as [[m2 ->] [M2 ->]]; eauto.
    destruct (integral_minmax (IZR m1) (IZR m2)) as [[m ->] _]; eauto.
    destruct (integral_minmax (IZR M1) (IZR M2)) as [_ [M ->]]; eauto.
    exists (m + M - (zd + za + zb + zc - m - M))%Z.
    repeat (rewrite minus_IZR || rewrite plus_IZR). ring. }
  assert (HS : 0 < S_of l).
  { unfold S_of; cbn [frame input coupler output l]; cases_minmax; lra. }
  assert (T : type (determineGrashof l) = CHANGE_POINT
              <-> S_of l + L_of l = PQ_of l).
  { destruct (type_cases l) as (_ & _ & _ & _ & Hc). split.
    - intros Ht. destruct HZ as [k Hk].
      destruct Hc as [[E _]|[(_ & _ & G)|[(E & _)|[E _]]]];
        try (rewrite Ht in E; try discriminate E;
             destruct (shortest (determineGrashof l)); discriminate E).
      rewrite Hk in G. apply small_integer_is_zero in G. lra.
    - intros He.
      destruct Hc as [[_ G]|[(E & _)|[(_ & _ & G)|(_ & _ & G)]]];
        [lra | exact E | lra | lra]. }
  split; [exact T|]. rewrite T.
  destruct (InfoPanel_verdict l) as [_ ->].
  unfold Rgtb, Rltb.
  destruct (Rlt_dec (S_of l + L_of l) (PQ_of l));
    [split; [lra | discriminate]|].
  destruct (Rlt_dec (PQ_of l) (S_of l + L_of l));
    [split; [lra | discriminate]|].
  split; [reflexivity | lra].
Qed.

Lemma change_point_on_whole_lengths_witness :
  type (determineGrashof (mkLinkLengths 100 100 100 100)) = CHANGE_POINT
  <-> relation (InfoPanel (mkLinkLengths 100 100 100 100)) = "="%string.
Proof.
  apply (change_point_on_whole_lengths (mkLinkLengths 100 100 100 100)).
  - exists 100%Z, 100%Z, 100%Z, 100%Z. reflexivity.
  - unfold positive; cbn; lra.
Defined.

(** ** Further properties: the drawing *)

(** X17. The view box is large enough: for positive lengths every joint of the
    frame, at every angle, is inside it. *)
Theorem joints_inside_viewBox (l : LinkLengths) (t : R) :
  positive l ->
  let r := calculateJoints l t in
  let v := viewBox r l in
  in_viewBox v (Ax r) (Ay r)
  /\ in_viewBox v (Bx r) (By r)
  /\ in_viewBox v (Dx r) (Dy r)
  /\ (forall cx cy : R,
        Cx r = Some cx -> Cy r = Some cy -> in_viewBox v cx cy).
Proof.
  intros (Hd & Ha & Hb & Hc) r v.
  assert (Hp : input l <= Rmax (input l) (output l)) by apply Rmax_l.
  assert (Hq : output l <= Rmax (input l) (output l)) by apply Rmax_r.
  pose proof (COS_bound (theta_of t)) as [C1 C2].
  pose proof (SIN_bound (theta_of t)) as [S1 S2].
  pose proof (COS_bound (thetaOutput_of l t)) as [C3 C4].
  pose proof (SIN_bound (thetaOutput_of l t)) as [S3 S4].
  subst v r. rewrite calculateJoints_locals.
  unfold in_viewBox, viewBox, Bx_of, By_of.
  set (m := Rmax (input l) (output l)) in *.
  destruct (rejected l t);
    cbn [Ax Ay Bx By Cx Cy Dx Dy
         viewBoxMinX viewBoxMinY viewBoxWidth viewBoxHeight];
    (refine (conj _ (conj _ (conj _ _)));
     [ lra | nra | lra
     | intros cx cy Ex Ey; try discriminate Ex;
       injection Ex as <-; injection Ey as <-; nra ]).
Qed.

Lemma joints_inside_viewBox_witness :
  in_viewBox (viewBox (calculateJoints initialLengths 90) initialLengths)
    (Bx (calculateJoints initialLengths 90))
    (By (calculateJoints initialLengths 90)).
Proof.
  assert (Hp : positive initialLengths)
    by (unfold positive, initialLengths; cbn; lra).
  exact (proj1 (proj2 (joints_inside_viewBox initialLengths 90 Hp))).
Defined.

Lemma LinkRole_eqb_eq (r1 r2 : LinkRole) :
  LinkRole_eqb r1 r2 = true <-> r1 = r2.
Proof. destruct r1, r2; cbn; split; intros H; congruence. Qed.

(** X18. The highlighting of the drawing, with the roles the classifier returns:
    a link is green, and drawn with width 6, exactly when it is the shortest
    role; it is red exactly when it is the longest role and not also the
    shortest.  The two roles coincide exactly when the four lengths are
    equal, so that is the only case in which no link is red. *)
Theorem highlighting (l : LinkLengths) (r : LinkRole) :
  let s := shortest (determineGrashof l) in
  let g := longest (determineGrashof l) in
  (getLinkColor s g r = "stroke-green-600"%string <-> r = s)
  /\ (getStrokeWidth s r = 6 <-> r = s)
  /\ (getLinkColor s g r = "stroke-red-500"%string <-> r = g /\ r <> s)
  /\ (s = g <->
      frame l = input l /\ input l = coupler l /\ coupler l = output l).
Proof.
  intros s g.
  refine (conj _ (conj _ (conj _ _))).
  - unfold getLinkColor.
    destruct (LinkRole_eqb r s) eqn:E1.
    + apply LinkRole_eqb_eq in E1. split; auto.
    + assert (r <> s) by (intros H; apply LinkRole_eqb_eq in H; congruence).
      destruct (LinkRole_eqb r g); split; intros; try discriminate;
        contradiction.
  - unfold getStrokeWidth.
    destruct (LinkRole_eqb r s) eqn:E1.
    + apply LinkRole_eqb_eq in E1. split; auto.
    + assert (r <> s) by (intros H; apply LinkRole_eqb_eq in H; congruence).
      split; intros; [lra | contradiction].
  - unfold getLinkColor.
    destruct (LinkRole_eqb r s) eqn:E1.
    + apply LinkRole_eqb_eq in E1. split; [discriminate | tauto].
    + assert (r <> s) by (intros H; apply LinkRole_eqb_eq in H; congruence).
      destruct (LinkRole_eqb r g) eqn:E2.
      * apply LinkRole_eqb_eq in E2. split; auto.
      * assert (r <> g) by (intros H'; apply LinkRole_eqb_eq in H'; congruence).
        split; [discriminate | tauto].
  - subst s g.
    destruct (type_cases l) as (Hs & Hg & Fs & Fg & _).
    split.
    + intros E. rewrite <- E, Hs in Hg.
      revert Hg; unfold S_of, L_of; cases_minmax; lra.
    + intros (E1 & E2 & E3).
      transitivity FRAME; [|symmetry].
      * apply (first_shortest_unique l); [exact Fs|].
        intros r'; destruct r'; cbn; split; intros; first [lra | exfalso; lia].
      * apply (first_longest_unique l); [exact Fg|].
        intros r'; destruct r'; cbn; split; intros; first [lra | exfalso; lia].
Qed.

Lemma highlighting_witness :
  getLinkColor (shortest (determineGrashof initialLengths))
               (longest (determineGrashof initialLengths)) INPUT
  = "stroke-green-600"%string
  /\ getLinkColor (shortest (determineGrashof initialLengths))
                  (longest (determineGrashof initialLengths)) FRAME
     = "stroke-red-500"%string.
Proof.
  split.
  - apply (highlighting initialLengths INPUT).
    unfold initialLengths; rewrite classify_200_80_180_140; reflexivity.
  - apply (highlighting initialLengths FRAME).
    unfold initialLengths; rewrite classify_200_80_180_140.
    split; [reflexivity | discriminate].
Defined.

(** ** Further properties: what a rejected angle means *)

Lemma dist_triangle (p q m : R * R) : dist p q <= dist p m + dist m q.
Proof.
  destruct p as [x0 y0], q as [x1 y1], m as [x2 y2].
  pose proof (triangle x0 y0 x1 y1 x2 y2) as H.
  unfold dist_euc, Rsqr in H. unfold dist; cbn [fst snd].
  replace ((x1 - x0) ^ 2 + (y1 - y0) ^ 2)
    with ((x0 - x1) * (x0 - x1) + (y0 - y1) * (y0 - y1)) by ring.
  replace ((x2 - x0) ^ 2 + (y2 - y0) ^ 2)
    with ((x0 - x2) * (x0 - x2) + (y0 - y2) * (y0 - y2)) by ring.
  replace ((x1 - x2) ^ 2 + (y1 - y2) ^ 2)
    with ((x2 - x1) * (x2 - x1) + (y2 - y1) * (y2 - y1)) by ring.
  exact H.
Qed.

Lemma dist_sym (p q : R * R) : dist p q = dist q p.
Proof. unfold dist; f_equal; ring. Qed.

Lemma dist_zero (p q : R * R) : dist p q = 0 -> p = q.
Proof.
  destruct p as [x0 y0], q as [x1 y1]; unfold dist; cbn [fst snd]; intros H.
  pose proof (pow2_ge_0 (x1 - x0)) as Px.
  pose proof (pow2_ge_0 (y1 - y0)) as Py.
  apply sqrt_eq_0 in H; [|lra].
  assert (Zx : (x1 - x0)² = 0) by (rewrite Rsqr_pow2; lra).
  assert (Zy : (y1 - y0)² = 0) by (rewrite Rsqr_pow2; lra).
  apply Rsqr_0_uniq in Zx; apply Rsqr_0_uniq in Zy.
  f_equal; lra.
Qed.

(** X6. A rejection is never a false alarm, but for one case.  If the solver
    rejects an angle although some point C is at distance [coupler] from B
    and [output] from D, then B and D coincide and coupler = output: the
    coincident-joint case, where C could be anywhere on a circle. *)
Theorem rejection_is_exact (l : LinkLengths) (t cx cy : R) :
  let r := calculateJoints l t in
  isValid r = false ->
  dist (Bx r, By r) (cx, cy) = coupler l ->
  dist (cx, cy) (Dx r, Dy r) = output l ->
  (Bx r, By r) = (Dx r, Dy r) /\ coupler l = output l.
Proof.
  intros r Hv HB HD.
  assert (E : dist (Bx r, By r) (Dx r, Dy r) = distBD_of l t).
  { subst r; rewrite calculateJoints_locals; destruct (rejected l t); reflexivity. }
  pose proof (dist_triangle (Bx r, By r) (Dx r, Dy r) (cx, cy)) as T1.
  pose proof (dist_triangle (Bx r, By r) (cx, cy) (Dx r, Dy r)) as T2.
  pose proof (dist_triangle (cx, cy) (Dx r, Dy r) (Bx r, By r)) as T3.
  rewrite (dist_sym (Dx r, Dy r) (cx, cy)) in T2.
  rewrite (dist_sym (cx, cy) (Bx r, By r)) in T3.
  rewrite HB, HD, E in T1, T2, T3.
  assert (Z : distBD_of l t = 0).
  { destruct (Req_dec (distBD_of l t) 0) as [Z|Z]; [exact Z|exfalso].
    pose proof (distBD_nonneg l t).
    assert (V : isValid r = true).
    { apply isValid_true. repeat split; try lra. cases_abs; lra. }
    rewrite V in Hv; discriminate Hv. }
  split.
  - apply dist_zero. rewrite E; exact Z.
  - lra.
Qed.

Lemma rejection_is_exact_witness :
  (Bx (calculateJoints (mkLinkLengths 1 1 1 1) 0),
   By (calculateJoints (mkLinkLengths 1 1 1 1) 0))
  = (Dx (calculateJoints (mkLinkLengths 1 1 1 1) 0),
     Dy (calculateJoints (mkLinkLengths 1 1 1 1) 0))
  /\ coupler (mkLinkLengths 1 1 1 1) = output (mkLinkLengths 1 1 1 1).
Proof.
  assert (Z : distBD_of (mkLinkLengths 1 1 1 1) 0 = 0).
  { rewrite distBD_at_0; cbn; cases_abs; lra. }
  assert (R0 : rejected (mkLinkLengths 1 1 1 1) 0 = true).
  { unfold rejected; rewrite Z.
    rewrite (proj2 (Reqb_true 0 0) eq_refl), orb_true_r; reflexivity. }
  assert (B0 : Bx_of (mkLinkLengths 1 1 1 1) 0 = 1
               /\ By_of (mkLinkLengths 1 1 1 1) 0 = 0).
  { unfold Bx_of, By_of, theta_of; cbn [input].
    replace (0 * PI / 180) with 0 by lra. rewrite cos_0, sin_0; lra. }
  destruct B0 as [Bx0 By0].
  apply (rejection_is_exact (mkLinkLengths 1 1 1 1) 0 2 0).
  - rewrite isValid_rejected, R0; reflexivity.
  - rewrite calculateJoints_locals, R0; cbn [Bx By coupler].
    rewrite Bx0, By0. unfold dist; cbn [fst snd].
    replace ((2 - 1) ^ 2 + (0 - 0) ^ 2) with 1 by ring. apply sqrt_1.
  - rewrite calculateJoints_locals, R0; cbn [Dx Dy output frame].
    unfold dist; cbn [fst snd].
    replace ((1 - 2) ^ 2 + (0 - 0) ^ 2) with 1 by ring. apply sqrt_1.
Defined.

(** X7. The test depends on the angle through cos theta only, so an angle and
    its mirror image are accepted or rejected together, and the two frames
    have B mirrored in the baseline. *)
Theorem validity_is_mirror_symmetric (l : LinkLengths) (t : R) :
  isValid (calculateJoints l (- t)) = isValid (calculateJoints l t)
  /\ Bx (calculateJoints l (- t)) = Bx (calculateJoints l t)
  /\ By (calculateJoints l (- t)) = - By (calculateJoints l t).
Proof.
  assert (Ex : Bx_of l (- t) = Bx_of l t).
  { unfold Bx_of, theta_of.
    replace (- t * PI / 180) with (- (t * PI / 180)) by field.
    rewrite cos_neg; reflexivity. }
  assert (Ey : By_of l (- t) = - By_of l t).
  { unfold By_of, theta_of.
    replace (- t * PI / 180) with (- (t * PI / 180)) by field.
    rewrite sin_neg; ring. }
  assert (ED : distBD_of l (- t) = distBD_of l t).
  { unfold distBD_of. rewrite Ex, Ey. f_equal; ring. }
  assert (ER : rejected l (- t) = rejected l t).
  { unfold rejected; rewrite ED; reflexivity. }
  rewrite !calculateJoints_locals, ER.
  destruct (rejected l t); cbn [isValid Bx By]; auto.
Qed.

(** From angle 0 to angle 180 the joint B moves away from D. *)
Lemma distBD_increasing (l : LinkLengths) (t1 t2 : R) :
  0 <= frame l -> 0 <= input l ->
  0 <= t1 -> t1 <= t2 -> t2 <= 180 ->
  distBD_of l t1 <= distBD_of l t2.
Proof.
  intros Hd Ha H1 H12 H2.
  unfold distBD_of. rewrite !distBD_sqr.
  apply sqrt_le_1_alt.
  pose proof PI_RGT_0 as Hpi.
  assert (Hc : cos (theta_of t2) <= cos (theta_of t1)).
  { unfold theta_of. apply cos_decr_1; nra. }
  assert (0 <= input l * frame l) by (apply Rmult_le_pos; assumption).
  nra.
Qed.

(** X8. Within a half turn the accepted angles have no gaps: for positive
    lengths, an angle between two accepted angles of 0..180 is accepted. *)
Theorem accepted_angles_have_no_gaps (l : LinkLengths) (t1 t2 t3 : R) :
  positive l ->
  0 <= t1 -> t1 <= t2 -> t2 <= t3 -> t3 <= 180 ->
  isValid (calculateJoints l t1) = true ->
  isValid (calculateJoints l t3) = true ->
  isValid (calculateJoints l t2) = true.
Proof.
  intros (Hd & Ha & _) H1 H12 H23 H3 V1 V3.
  apply isValid_true in V1; apply isValid_true in V3; apply isValid_true.
  pose proof (distBD_increasing l t1 t2 ltac:(lra) ltac:(lra) H1 H12 ltac:(lra)).
  pose proof (distBD_increasing l t2 t3 ltac:(lra) ltac:(lra) ltac:(lra) H23 H3).
  lra.
Qed.

Lemma accepted_angles_have_no_gaps_witness :
  isValid (calculateJoints (mkLinkLengths 2 1 2 2) 90) = true.
Proof.
  apply (accepted_angles_have_no_gaps (mkLinkLengths 2 1 2 2) 0 90 180);
    try lra.
  - unfold positive; cbn; lra.
  - apply isValid_true. rewrite distBD_at_0; cbn; cases_abs; lra.
  - apply isValid_true. rewrite distBD_at_180; cbn; cases_abs; lra.
Defined.
